(** * The WebRTC stream multiplexer of go-libp2p: [connection.go]

    A shallow embedding of [p2p/transport/webrtc/connection.go] and the
    properties of its close protocol, stream table and stream-ID allocator.

    Conventions of the embedding.
    - A method [func (c *connection) m(args) res] becomes a function
      [m args c : res * connection]: the receiver is threaded explicitly.
    - Calls into collaborators that are not part of this file ([pc.Close],
      [scope.Done], [str.Reset], ...) are recorded, in program order, in the
      ghost field [trace] of the connection.
    - What a collaborator or the scheduler decides (the result of
      [CreateDataChannel], which ready case a [select] takes, whether another
      goroutine finishes [Close] while this one is suspended) is an argument
      of the operation, so every theorem quantifies over all of them. *)

From Stdlib Require Import ZArith Lia.
From stdpp Require Import base option list gmap strings relations.

Local Open Scope Z_scope.

(** ** Machine integers *)

(** [atomic.Int32] arithmetic wraps around in two's complement. *)
Definition wrap_int32 (z : Z) : Z := (z + 2 ^ 31) `mod` 2 ^ 32 - 2 ^ 31.

(** The conversion [uint16(id)] of an [int32] keeps the low 16 bits. *)
Definition to_uint16 (z : Z) : Z := z `mod` 2 ^ 16.

Definition MaxUint16 : Z := 65535.

Definition is_int32 (z : Z) : Prop := - 2 ^ 31 <= z < 2 ^ 31.

(** [maxAcceptQueueLen] is the number of waiting streams. *)
Definition maxAcceptQueueLen : Z := 256.

(** ** Errors *)

(** [type errConnectionTimeout struct{}] and its three methods. *)
Inductive errConnectionTimeout : Set := mk_errConnectionTimeout.

Definition errConnectionTimeout_Error (_ : errConnectionTimeout) : string :=
  "connection timeout"%string.
Definition errConnectionTimeout_Timeout (_ : errConnectionTimeout) : bool := true.
Definition errConnectionTimeout_Temporary (_ : errConnectionTimeout) : bool := false.

(** Values of the interface type [error] that flow through the connection:
    [errors.New msg], the timeout struct, [fmt.Errorf("open stream: %w", e)],
    and errors produced by collaborators (pion, the caller's context). *)
Inductive error : Set :=
  | ErrNew (msg : string)
  | ErrTimeout (e : errConnectionTimeout)
  | ErrOpenStream (cause : error)
  | ErrForeign (msg : string).

Fixpoint Error (e : error) : string :=
  match e with
  | ErrNew msg => msg
  | ErrTimeout t => errConnectionTimeout_Error t
  | ErrOpenStream cause => ("open stream: " ++ Error cause)%string
  | ErrForeign msg => msg
  end.

#[global] Instance errConnectionTimeout_eq_dec : EqDecision errConnectionTimeout.
Proof. solve_decision. Defined.
#[global] Instance error_eq_dec : EqDecision error.
Proof. solve_decision. Defined.

(** ** Channels and streams *)

(** [*webrtc.DataChannel]: an opaque handle and the result of [ID()]. *)
Record DataChannel : Set := { dc_ref : nat; dc_ID : Z }.

(** [datachannel.ReadWriteCloser] is an interface value: a handle or nil. *)
Definition ReadWriteCloser : Set := option nat.

(** [type DetachedDataChannel struct { stream; channel }]. *)
Record DetachedDataChannel : Set :=
  { dd_stream : ReadWriteCloser; dd_channel : DataChannel }.

(** The [stream] type lives in [stream.go].  The connection reads its field
    [id] and hands it a teardown callback; [onDone] is the ID the callback
    closure passes to [removeStream]. *)
Record stream : Set :=
  { stream_id : Z;
    stream_channel : DataChannel;
    stream_rwc : ReadWriteCloser;
    onDone : Z }.

(** Modelled from the spec: [newStream] of [stream.go] is not part of the
    sources at hand.  The spec has the connection "wrap the ready channel as
    a Stream" that is "bound to the channel's own numeric ID", with a
    deregistration callback supplied by the caller. *)
Definition newStream (channel : DataChannel) (rwc : ReadWriteCloser)
    (onDone_id : Z) : stream :=
  {| stream_id := dc_ID channel;
     stream_channel := channel;
     stream_rwc := rwc;
     onDone := onDone_id |}.

(** Modelled from the spec: package [pb] is not part of the sources at hand.
    The spec describes the message the bridge sends as "a single serialized
    control message with a reset flag"; the source builds it as
    [pb.Message{Flag: pb.Message_RESET.Enum()}], an optional flag field.  Of
    the flags only [Message_RESET] is used by the connection. *)
Inductive Message_Flag : Set :=
  Message_FIN | Message_STOP_SENDING | Message_RESET.

Record Message : Set := { Flag : option Message_Flag }.

#[global] Instance DataChannel_eq_dec : EqDecision DataChannel.
Proof. solve_decision. Defined.
#[global] Instance DetachedDataChannel_eq_dec : EqDecision DetachedDataChannel.
Proof. solve_decision. Defined.
#[global] Instance stream_eq_dec : EqDecision stream.
Proof. solve_decision. Defined.
#[global] Instance Message_Flag_eq_dec : EqDecision Message_Flag.
Proof. solve_decision. Defined.
#[global] Instance Message_eq_dec : EqDecision Message.
Proof. solve_decision. Defined.

(** ** Observable effects *)

Inductive event : Set :=
  | EvWriteCloseErr (e : error)          (* assignment to [c.closeErr] *)
  | EvCancel                             (* [c.cancel()] *)
  | EvReset (s : stream)                 (* [str.Reset()] *)
  | EvSetCloseError (s : stream) (e : error)  (* [str.setCloseError(e)] *)
  | EvStreamClose (s : stream)           (* [str.Close()] *)
  | EvPcClose                            (* [c.pc.Close()] *)
  | EvScopeDone                          (* [c.scope.Done()] *)
  | EvCreateDataChannel (id : Z)         (* [c.pc.CreateDataChannel] *)
  | EvWriteMsg (rwc : ReadWriteCloser) (m : Message)  (* [w.WriteMsg(b)] *)
  | EvRwcClose (rwc : ReadWriteCloser).  (* [rwc.Close()] *)

#[global] Instance event_eq_dec : EqDecision event.
Proof. solve_decision. Defined.

(** Number of occurrences of an event in a trace. *)
Definition occurrences (e : event) (t : list event) : nat :=
  length (filter (λ x, x = e) t).

(** ** The connection *)

(** A buffered Go channel of detached data channels: a send succeeds while
    the buffer has room.  (The direct hand-over of an unbuffered channel to a
    receiver that is already waiting is not represented; the statements about
    a full queue are made for a positive capacity.) *)
Record chan : Set :=
  { chan_buf : list DetachedDataChannel; chan_cap : nat }.

(** The fields of [struct connection] that the operations read or write.
    [closeOnce] is the one-shot guard ([true] once [Do] has been entered),
    [streams = None] is the nil map, [ctx_done] is the state of the lifecycle
    context.  The peer identities, addresses and [connectionState] are
    set at construction and only read by the accessors. *)
Record connection : Type :=
  { closeOnce : bool;
    closeErr : option error;
    streams : option (gmap Z stream);
    nextStreamID : Z;
    acceptQueue : chan;
    ctx_done : bool;
    trace : list event }.

Definition set_closeOnce (b : bool) (c : connection) : connection :=
  {| closeOnce := b; closeErr := closeErr c; streams := streams c;
     nextStreamID := nextStreamID c; acceptQueue := acceptQueue c;
     ctx_done := ctx_done c; trace := trace c |}.

Definition set_closeErr (e : option error) (c : connection) : connection :=
  {| closeOnce := closeOnce c; closeErr := e; streams := streams c;
     nextStreamID := nextStreamID c; acceptQueue := acceptQueue c;
     ctx_done := ctx_done c; trace := trace c |}.

Definition set_streams (m : option (gmap Z stream)) (c : connection) : connection :=
  {| closeOnce := closeOnce c; closeErr := closeErr c; streams := m;
     nextStreamID := nextStreamID c; acceptQueue := acceptQueue c;
     ctx_done := ctx_done c; trace := trace c |}.

Definition set_nextStreamID (n : Z) (c : connection) : connection :=
  {| closeOnce := closeOnce c; closeErr := closeErr c; streams := streams c;
     nextStreamID := n; acceptQueue := acceptQueue c;
     ctx_done := ctx_done c; trace := trace c |}.

Definition set_acceptQueue (q : chan) (c : connection) : connection :=
  {| closeOnce := closeOnce c; closeErr := closeErr c; streams := streams c;
     nextStreamID := nextStreamID c; acceptQueue := q;
     ctx_done := ctx_done c; trace := trace c |}.

Definition set_ctx_done (b : bool) (c : connection) : connection :=
  {| closeOnce := closeOnce c; closeErr := closeErr c; streams := streams c;
     nextStreamID := nextStreamID c; acceptQueue := acceptQueue c;
     ctx_done := b; trace := trace c |}.

Definition emit (evs : list event) (c : connection) : connection :=
  {| closeOnce := closeOnce c; closeErr := closeErr c; streams := streams c;
     nextStreamID := nextStreamID c; acceptQueue := acceptQueue c;
     ctx_done := ctx_done c; trace := trace c ++ evs |}.

(** *** The statements of the close procedure *)

(** [c.closeErr = e] *)
Definition write_closeErr (e : error) (c : connection) : connection :=
  emit [EvWriteCloseErr e] (set_closeErr (Some e) c).

(** [c.cancel()] *)
Definition cancel (c : connection) : connection :=
  emit [EvCancel] (set_ctx_done true c).

(** [c.m.Lock(); streams := c.streams; c.streams = nil; c.m.Unlock()] *)
Definition take_streams (c : connection) : option (gmap Z stream) * connection :=
  (streams c, set_streams None c).

(** The streams visited by [for _, str := range streams].  Go leaves the
    order of a map range unspecified; the embedding visits them in the order
    of [map_to_list], and the theorems below do not depend on the order.
    Ranging over the nil map visits nothing. *)
Definition range_streams (m : option (gmap Z stream)) : list stream :=
  match m with
  | None => []
  | Some m => (map_to_list m).*2
  end.

Definition str_Reset (s : stream) (c : connection) : connection :=
  emit [EvReset s] c.
Definition str_setCloseError (e : error) (s : stream) (c : connection) : connection :=
  emit [EvSetCloseError s e] c.
Definition str_Close (s : stream) (c : connection) : connection :=
  emit [EvStreamClose s] c.
Definition pc_Close (c : connection) : connection := emit [EvPcClose] c.
Definition scope_Done (c : connection) : connection := emit [EvScopeDone] c.

(** [sync.Once.Do]: the body runs on the first call only. *)
Definition Once_Do (f : connection → connection) (c : connection) : connection :=
  if closeOnce c then c else f (set_closeOnce true c).

(** [func (c *connection) Close() error] *)
Definition Close (c : connection) : option error * connection :=
  let c := Once_Do (λ c,
    let c := write_closeErr (ErrNew "connection closed") c in
    let c := cancel c in
    let '(streams, c) := take_streams c in
    let c := foldl (λ c str, str_Reset str c) c (range_streams streams) in
    let c := pc_Close c in
    scope_Done c) c in
  (None, c).

(** [func (c *connection) closeTimedOut() error] *)
Definition closeTimedOut (c : connection) : option error * connection :=
  let c := Once_Do (λ c,
    let c := write_closeErr (ErrTimeout mk_errConnectionTimeout) c in
    let c := cancel c in
    let '(streams, c) := take_streams c in
    let c := foldl (λ c str,
               str_setCloseError (ErrTimeout mk_errConnectionTimeout) str c)
               c (range_streams streams) in
    let c := pc_Close c in
    scope_Done c) c in
  (None, c).

(** [func (c *connection) IsClosed() bool]: a non-blocking poll of
    [c.ctx.Done()]. *)
Definition IsClosed (c : connection) : bool := ctx_done c.

(** *** The stream table *)

(** [func (c *connection) addStream(str *stream) error] *)
Definition addStream (str : stream) (c : connection) : option error * connection :=
  match streams c with
  | None => (closeErr c, c)
  | Some m =>
      match m !! stream_id str with
      | Some _ => (Some (ErrNew "stream ID already exists"), c)
      | None => (None, set_streams (Some (<[stream_id str := str]> m)) c)
      end
  end.

(** [func (c *connection) removeStream(id uint16)]: [delete] on a nil map
    is a no-op. *)
Definition removeStream (id : Z) (c : connection) : connection :=
  set_streams (delete id <$> streams c) c.

(** ** Blocking operations and the environment *)

(** An operation that may suspend either returns or stays blocked. *)
Inductive outcome (A : Type) : Type :=
  | Returns (a : A)
  | Blocks.
Arguments Returns {A} a.
Arguments Blocks {A}.

(** The two entry points of the close procedure. *)
Inductive close_kind : Set := Graceful | TimedOut.

(** Another goroutine that runs [Close] or [closeTimedOut] to completion at
    a point where the current one can be preempted.  A close that is only
    part-way through its body at that point (cancelled, table not yet
    swapped) is not an instance of this; the statement-by-statement system
    [sys_step] below covers the close body in progress. *)
Definition preempt (k : option close_kind) (c : connection) : connection :=
  match k with
  | None => c
  | Some Graceful => (Close c).2
  | Some TimedOut => (closeTimedOut c).2
  end.

(** The cases of the [select] in [detachChannel]. *)
Inductive detach_case : Set := CaseConnDone | CaseCallerDone | CaseOpened.

(** Go takes one of the ready cases of a [select], chosen at random, and
    suspends when none is ready.  [pick] is the scheduler's preference: it is
    taken when ready, otherwise some other ready case is. *)
Definition select_detach (conn_done caller_done opened : bool)
    (pick : detach_case) : option detach_case :=
  let ready (k : detach_case) :=
    match k with
    | CaseConnDone => conn_done
    | CaseCallerDone => caller_done
    | CaseOpened => opened
    end in
  if ready pick then Some pick
  else if conn_done then Some CaseConnDone
  else if caller_done then Some CaseCallerDone
  else if opened then Some CaseOpened
  else None.

(** What the environment of one [OpenStream] call decides. *)
Record open_world : Set :=
  { (* a close that completes between the [IsClosed] poll and the allocation *)
    ow_preempt_alloc : option close_kind;
    (* [c.pc.CreateDataChannel]: the handle of the new channel, or an error *)
    ow_create : nat + error;
    (* a close that completes while [detachChannel] is suspended *)
    ow_preempt_wait : option close_kind;
    (* [Some e]: the caller's context is done and [ctx.Err()] is [e] *)
    ow_caller : option error;
    (* [Some r]: the channel's [OnOpen] fired and [dc.Detach()] returned [r] *)
    ow_opened : option (ReadWriteCloser * option error);
    ow_pick : detach_case;
    (* a close that completes between [detachChannel] and [addStream] *)
    ow_preempt_add : option close_kind }.

(** [func (c *connection) detachChannel(ctx, dc) (rwc, err)] *)
Definition detachChannel (w : open_world) (c : connection)
    : outcome (ReadWriteCloser * option error) :=
  match select_detach (ctx_done c) (bool_decide (is_Some (ow_caller w)))
          (bool_decide (is_Some (ow_opened w))) (ow_pick w) with
  | None => Blocks
  | Some CaseConnDone => Returns (None, closeErr c)
  | Some CaseCallerDone => Returns (None, ow_caller w)
  | Some CaseOpened =>
      match ow_opened w with
      | Some r => Returns r
      | None => Blocks
      end
  end.

(** [func (c *connection) OpenStream(ctx) (network.MuxedStream, error)] *)
Definition OpenStream (w : open_world) (c : connection)
    : outcome (option stream * option error) * connection :=
  if IsClosed c then (Returns (None, closeErr c), c) else
  let c := preempt (ow_preempt_alloc w) c in
  (* id := c.nextStreamID.Add(2) - 2 *)
  let added := wrap_int32 (nextStreamID c + 2) in
  let c := set_nextStreamID added c in
  let id := wrap_int32 (added - 2) in
  if MaxUint16 <? id then
    (Returns (None, Some (ErrNew "exhausted stream ID space")), c)
  else
  let streamID := to_uint16 id in
  let c := emit [EvCreateDataChannel streamID] c in
  match ow_create w with
  | inr err => (Returns (None, Some err), c)
  | inl ref =>
      let dc := {| dc_ref := ref; dc_ID := streamID |} in
      let c := preempt (ow_preempt_wait w) c in
      match detachChannel w c with
      | Blocks => (Blocks, c)
      | Returns (_, Some err) => (Returns (None, Some (ErrOpenStream err)), c)
      | Returns (rwc, None) =>
          let str := newStream dc rwc streamID in
          let c := preempt (ow_preempt_add w) c in
          match addStream str c with
          | (Some err, c) => (Returns (None, Some err), str_Close str c)
          | (None, c) => (Returns (Some str, None), c)
          end
      end
  end.

(** The cases of the [select] in [AcceptStream]. *)
Inductive accept_case : Set := CaseDone | CaseQueue.

Record accept_world : Set :=
  { aw_pick : accept_case;
    (* a close that completes between the receive and [addStream] *)
    aw_preempt_add : option close_kind }.

(** [func (c *connection) AcceptStream() (network.MuxedStream, error)] *)
Definition AcceptStream (w : accept_world) (c : connection)
    : outcome (option stream * option error) * connection :=
  let recv (dc : DetachedDataChannel) (rest : list DetachedDataChannel) :=
    let c := set_acceptQueue
               {| chan_buf := rest; chan_cap := chan_cap (acceptQueue c) |} c in
    let str := newStream (dd_channel dc) (dd_stream dc) (dc_ID (dd_channel dc)) in
    let c := preempt (aw_preempt_add w) c in
    match addStream str c with
    | (Some err, c) => (Returns (None, Some err), str_Close str c)
    | (None, c) => (Returns (Some str, None), c)
    end in
  match ctx_done c, chan_buf (acceptQueue c), aw_pick w with
  | false, [], _ => (Blocks, c)
  | true, [], _ => (Returns (None, closeErr c), c)
  | true, _ :: _, CaseDone => (Returns (None, closeErr c), c)
  | _, dc :: rest, _ => recv dc rest
  end.

(** ** The accept-queue bridge *)

(** [queue := make(chan DetachedDataChannel, queueLen)]; a negative length
    panics. *)
Definition SetupDataChannelQueue (queueLen : Z) : option chan :=
  if queueLen <? 0 then None
  else Some {| chan_buf := []; chan_cap := Z.to_nat queueLen |}.

(** The [OnOpen] callback that [SetupDataChannelQueue] installs on every
    remote channel [dc].  [detach] is the result of [dc.Detach()] and
    [write_err] the (ignored) result of [w.WriteMsg(b)].  The two [log.Warnf]
    calls leave no trace. *)
Definition onOpen (dc : DataChannel) (detach : ReadWriteCloser * option error)
    (write_err : option error) (queue : chan) : chan * list event :=
  match detach with
  | (_, Some err) => (queue, [])
  | (rwc, None) =>
      (* select { case queue <- DetachedDataChannel{rwc, dc}: default: ... } *)
      if bool_decide (length (chan_buf queue) < chan_cap queue)%nat then
        ({| chan_buf := chan_buf queue ++ [ {| dd_stream := rwc; dd_channel := dc |} ];
            chan_cap := chan_cap queue |}, [])
      else
        (queue, [EvWriteMsg rwc {| Flag := Some Message_RESET |}; EvRwcClose rwc])
  end.

(** The callback acting on the queue a connection was built with. *)
Definition bridge_onOpen (dc : DataChannel) (detach : ReadWriteCloser * option error)
    (write_err : option error) (c : connection) : connection :=
  let '(q, evs) := onOpen dc detach write_err (acceptQueue c) in
  emit evs (set_acceptQueue q c).

(** ** Construction *)

(** [network.Direction] is declared in [core/network], outside the sources at
    hand.  The constructor's [switch] names [DirInbound] and [DirOutbound] and
    has no default case; [DirUnknown] stands for the remaining value of the
    type, its zero value, for which the counter keeps its own zero value. *)
Inductive Direction : Set := DirUnknown | DirInbound | DirOutbound.

(** The states of [webrtc.PeerConnectionState] (pion). *)
Inductive PeerConnectionState : Set :=
  | PeerConnectionStateNew
  | PeerConnectionStateConnecting
  | PeerConnectionStateConnected
  | PeerConnectionStateDisconnected
  | PeerConnectionStateFailed
  | PeerConnectionStateClosed.

Definition failed_or_closed (state : PeerConnectionState) : bool :=
  match state with
  | PeerConnectionStateFailed | PeerConnectionStateClosed => true
  | _ => false
  end.

(** [func NewWebRTCConnection(direction, pc, ..., datachannelQueue)].
    [state] is what [pc.ConnectionState()] reports at the end of the
    constructor; on failure the constructor calls [pc.Close()]. *)
Definition NewWebRTCConnection (direction : Direction)
    (state : PeerConnectionState) (datachannelQueue : chan)
    : option connection * option error * list event :=
  let c := {| closeOnce := false; closeErr := None; streams := Some ∅;
              nextStreamID := 0; acceptQueue := datachannelQueue;
              ctx_done := false; trace := [] |} in
  let c := match direction with
           | DirInbound => set_nextStreamID 1 c
           | DirOutbound => set_nextStreamID 2 c
           | DirUnknown => c
           end in
  if failed_or_closed state then
    (None, Some (ErrNew "connection closed"), [EvPcClose])
  else (Some c, None, []).

(** The callback registered with [pc.OnConnectionStateChange]. *)
Definition onConnectionStateChange (state : PeerConnectionState)
    (c : connection) : connection :=
  if failed_or_closed state then (closeTimedOut c).2 else c.

(** ** Sequences of calls *)

(** The reason each entry point records, and what it does to a live stream. *)
Definition close_reason (k : close_kind) : error :=
  match k with
  | Graceful => ErrNew "connection closed"
  | TimedOut => ErrTimeout mk_errConnectionTimeout
  end.

Definition terminate (k : close_kind) (str : stream) (c : connection) : connection :=
  match k with
  | Graceful => str_Reset str c
  | TimedOut => str_setCloseError (ErrTimeout mk_errConnectionTimeout) str c
  end.

Definition termination_event (k : close_kind) (str : stream) : event :=
  match k with
  | Graceful => EvReset str
  | TimedOut => EvSetCloseError str (ErrTimeout mk_errConnectionTimeout)
  end.

Definition call_close (k : close_kind) (c : connection) : option error * connection :=
  match k with
  | Graceful => Close c
  | TimedOut => closeTimedOut c
  end.

(** The streams registered in the table of a connection. *)
Definition registered (c : connection) : list stream := range_streams (streams c).

(** The entry points through which the rest of the program reaches a
    connection: the public methods, the state-change callback of the peer
    connection, the teardown callback of a stream and the bridge's
    [OnOpen] callback. *)
Inductive op : Set :=
  | OpClose
  | OpStateChange (state : PeerConnectionState)
  | OpOpenStream (w : open_world)
  | OpAcceptStream (w : accept_world)
  | OpStreamDone (id : Z)
  | OpRemoteChannel (dc : DataChannel) (detach : ReadWriteCloser * option error)
      (write_err : option error).

Definition exec (o : op) (c : connection) : connection :=
  match o with
  | OpClose => (Close c).2
  | OpStateChange state => onConnectionStateChange state c
  | OpOpenStream w => (OpenStream w c).2
  | OpAcceptStream w => (AcceptStream w c).2
  | OpStreamDone id => removeStream id c
  | OpRemoteChannel dc detach write_err => bridge_onOpen dc detach write_err c
  end.

Definition run (os : list op) (c : connection) : connection :=
  foldl (λ c o, exec o c) c os.

(** [n] successive [OpenStream] calls, the [i]-th in the environment [w i]. *)
Definition open_many (w : N → open_world) (n : N) (c : connection) : connection :=
  (N.iter n (λ '(i, c), (N.succ i, (OpenStream (w i) c).2)) (0%N, c)).2.

(** ** The close procedure, one statement at a time *)

(** Program points of the function passed to [closeOnce.Do]; [AtLoop rest]
    is the [for ... range] loop with [rest] still to visit. *)
Inductive close_pc : Set :=
  | AtWriteErr
  | AtCancel
  | AtTake
  | AtLoop (rest : list stream)
  | AtPcClose
  | AtScopeDone
  | AtReturn.

Definition close_step (k : close_kind) (pc : close_pc) (c : connection)
    : close_pc * connection :=
  match pc with
  | AtWriteErr => (AtCancel, write_closeErr (close_reason k) c)
  | AtCancel => (AtTake, cancel c)
  | AtTake => let '(streams, c) := take_streams c in (AtLoop (range_streams streams), c)
  | AtLoop (str :: rest) => (AtLoop rest, terminate k str c)
  | AtLoop [] => (AtPcClose, c)
  | AtPcClose => (AtScopeDone, pc_Close c)
  | AtScopeDone => (AtReturn, scope_Done c)
  | AtReturn => (AtReturn, c)
  end.

Fixpoint close_steps (n : nat) (k : close_kind) (pc : close_pc) (c : connection)
    : close_pc * connection :=
  match n with
  | O => (pc, c)
  | S n => let '(pc, c) := close_step k pc c in close_steps n k pc c
  end.

(** A connection together with the goroutine, if any, that is inside
    [closeOnce.Do]. *)
Record system : Type :=
  { conn : connection; closer : option (close_kind * close_pc) }.

(** Interleavings: a goroutine wins the one-shot guard and enters the close
    body; the closing goroutine executes its next statement; or any other
    entry point runs in between. *)
Inductive sys_step : system → system → Prop :=
  | step_enter k c :
      closeOnce c = false →
      sys_step {| conn := c; closer := None |}
               {| conn := set_closeOnce true c; closer := Some (k, AtWriteErr) |}
  | step_closer k pc c :
      pc ≠ AtReturn →
      sys_step {| conn := c; closer := Some (k, pc) |}
               {| conn := (close_step k pc c).2;
                  closer := Some (k, (close_step k pc c).1) |}
  | step_op o c cl :
      sys_step {| conn := c; closer := cl |}
               {| conn := exec o c; closer := cl |}.

(** A freshly constructed connection: no close has started. *)
Definition fresh (c : connection) : Prop :=
  closeOnce c = false ∧ closeErr c = None ∧ ctx_done c = false ∧ trace c = [].

(** Events of the close body that concern the lifecycle. *)
Definition is_write (e : event) : bool :=
  match e with EvWriteCloseErr _ => true | _ => false end.
Definition is_cancel (e : event) : bool :=
  match e with EvCancel => true | _ => false end.

(** [reason_first seen t]: every [EvCancel] of [t] comes after a write of
    the close reason ([seen] tells whether one happened before [t]). *)
Fixpoint reason_first (seen : bool) (t : list event) : bool :=
  match t with
  | [] => true
  | e :: t =>
      if is_cancel e then seen && reason_first seen t
      else reason_first (seen || is_write e) t
  end.

(** ** Predicates used in the statements *)

(** The entry registered under an ID, if any; nothing is registered in the
    nil table. *)
Definition table_lookup (c : connection) (id : Z) : option stream :=
  streams c ≫= (λ m, m !! id).

(** Every entry of the table sits under the ID of its stream. *)
Definition well_keyed (c : connection) : Prop :=
  ∀ id str, table_lookup c id = Some str → stream_id str = id.

(** Two connections that differ at most in the stream table. *)
Definition same_but_streams (c c' : connection) : Prop :=
  closeOnce c' = closeOnce c ∧ closeErr c' = closeErr c ∧
  nextStreamID c' = nextStreamID c ∧ acceptQueue c' = acceptQueue c ∧
  ctx_done c' = ctx_done c ∧ trace c' = trace c.

(** The state in which a completed close leaves the connection. *)
Definition closed_with (e : error) (c : connection) : Prop :=
  closeOnce c = true ∧ ctx_done c = true ∧ closeErr c = Some e ∧ streams c = None.

(** Events that only the close body emits. *)
Definition close_event (e : event) : bool :=
  match e with
  | EvWriteCloseErr _ | EvCancel | EvReset _ | EvSetCloseError _ _
  | EvPcClose | EvScopeDone => true
  | _ => false
  end.

(** [quiet c c']: a step that stays clear of the lifecycle: it leaves the
    guard, the reason and the signal alone, never re-opens a nil table, adds
    entries to the table only under their own ID, and emits no event of the
    close body. *)
Definition quiet (c c' : connection) : Prop :=
  closeOnce c' = closeOnce c ∧ closeErr c' = closeErr c ∧
  ctx_done c' = ctx_done c ∧
  (streams c = None → streams c' = None) ∧
  (∀ id str, table_lookup c' id = Some str →
             table_lookup c id = Some str ∨ stream_id str = id) ∧
  ∃ evs, trace c' = trace c ++ evs ∧ forallb (λ e, negb (close_event e)) evs = true.

(** Every entry point is a sequence of quiet steps and complete calls of
    [Close] or [closeTimedOut]. *)
Inductive basic : connection → connection → Prop :=
  | basic_quiet c c' : quiet c c' → basic c c'
  | basic_close k c : basic c (call_close k c).2.

(** A sequence of calls to the two close entry points: the values they
    return, in order, and the state they leave. *)
Fixpoint close_calls (ks : list close_kind) (c : connection)
    : list (option error) * connection :=
  match ks with
  | [] => ([], c)
  | k :: ks =>
      let '(r, c) := call_close k c in
      let '(rs, c) := close_calls ks c in
      (r :: rs, c)
  end.

(** The connection [NewWebRTCConnection] builds when it succeeds. *)
Definition initial (direction : Direction) (datachannelQueue : chan) : connection :=
  {| closeOnce := false; closeErr := None; streams := Some ∅;
     nextStreamID := match direction with
                     | DirInbound => 1
                     | DirOutbound => 2
                     | DirUnknown => 0
                     end;
     acceptQueue := datachannelQueue; ctx_done := false; trace := [] |}.

(** Between calls a connection is either untouched by the close procedure or
    completely closed. *)
Definition settled (c : connection) : Prop :=
  if closeOnce c then ∃ k, closed_with (close_reason k) c
  else ctx_done c = false.

(** Environments in which no other goroutine closes the connection. *)
Definition undisturbed (w : open_world) : Prop :=
  ow_preempt_alloc w = None ∧ ow_preempt_wait w = None ∧ ow_preempt_add w = None.

(** The lifecycle events of a trace: the reason, the signal, the session
    and the accounting handle. *)
Definition lifecycle_event (e : event) : bool :=
  match e with
  | EvWriteCloseErr _ | EvCancel | EvPcClose | EvScopeDone => true
  | _ => false
  end.

Definition lifecycle (t : list event) : list event :=
  filter (λ e, lifecycle_event e = true) t.
Arguments lifecycle : simpl never.

(** How many lifecycle events the closing goroutine has behind it. *)
Definition stage_of (pc : close_pc) : nat :=
  match pc with
  | AtWriteErr => 0
  | AtCancel => 1
  | AtTake | AtLoop _ | AtPcClose => 2
  | AtScopeDone => 3
  | AtReturn => 4
  end.

(** Whether the closing goroutine has already swapped the table for nil. *)
Definition past_take (pc : close_pc) : bool :=
  match pc with
  | AtWriteErr | AtCancel | AtTake => false
  | _ => true
  end.

(** The invariant of the interleaved system: the lifecycle events seen so
    far are a prefix of [reason; cancel; session close; release], the
    connection's fields agree with how long that prefix is, the prefix is as
    long as the closing goroutine's program point says, and the table is nil
    from the swap on. *)
Definition sys_inv (s : system) : Prop :=
  let c := conn s in
  ∃ (n : nat) (r : error),
    lifecycle (trace c) = take n [EvWriteCloseErr r; EvCancel; EvPcClose; EvScopeDone] ∧
    closeErr c = (if decide (n = 0%nat) then None else Some r) ∧
    ctx_done c = bool_decide (2 ≤ n)%nat ∧
    match closeOnce c, closer s with
    | false, None => n = 0%nat
    | false, Some _ => False
    | true, None => n = 4%nat ∧ streams c = None
    | true, Some (k, pc) =>
        r = close_reason k ∧ n = stage_of pc ∧
        (past_take pc = true → streams c = None)
    end.

(** The events of one run of the close body over the streams [l]. *)
Definition close_events (k : close_kind) (l : list stream) : list event :=
  [EvWriteCloseErr (close_reason k); EvCancel] ++ (termination_event k <$> l)
    ++ [EvPcClose; EvScopeDone].

(** Environments in which the channel is created, opens and detaches, and
    the [select] of [detachChannel] takes the opened case. *)
Definition cooperative (w : open_world) (ref : nat) (rwc : ReadWriteCloser) : Prop :=
  undisturbed w ∧ ow_create w = inl ref ∧
  ow_opened w = Some (rwc, None) ∧ ow_pick w = CaseOpened.

(** The ID of the stream a call returned, if it returned one. *)
Definition returned_id (r : outcome (option stream * option error)) : option Z :=
  match r with
  | Returns (Some str, _) => Some (stream_id str)
  | _ => None
  end.

(** Whether a call returned an error and no stream. *)
Definition failed (r : outcome (option stream * option error)) : Prop :=
  ∃ e, r = Returns (None, Some e).

(** ** Sample data *)

Definition sample_channel (id : Z) : DataChannel :=
  {| dc_ref := Z.to_nat id; dc_ID := id |}.

Definition sample_stream (id : Z) : stream :=
  newStream (sample_channel id) (Some (Z.to_nat id)) id.

Definition sample_queue : chan := {| chan_buf := []; chan_cap := 2 |}.

(** An outbound connection with the streams 2 and 4 registered. *)
Definition sample_conn : connection :=
  {| closeOnce := false; closeErr := None;
     streams := Some (<[4 := sample_stream 4]> (<[2 := sample_stream 2]> ∅));
     nextStreamID := 6; acceptQueue := sample_queue;
     ctx_done := false; trace := [] |}.

(** An environment in which everything succeeds at once. *)
Definition calm : open_world :=
  {| ow_preempt_alloc := None; ow_create := inl 7%nat; ow_preempt_wait := None;
     ow_caller := None; ow_opened := Some (Some 7%nat, None);
     ow_pick := CaseOpened; ow_preempt_add := None |}.

(** A connection whose counter has passed the 16-bit range. *)
Definition exhausted_conn : connection :=
  {| closeOnce := false; closeErr := None;
     streams := Some (<[4 := sample_stream 4]> (<[2 := sample_stream 2]> ∅));
     nextStreamID := 65536; acceptQueue := sample_queue;
     ctx_done := false; trace := [] |}.

(** An environment in which creating the channel fails. *)
Definition failing : open_world :=
  {| ow_preempt_alloc := None; ow_create := inr (ErrForeign "create failed");
     ow_preempt_wait := None; ow_caller := None; ow_opened := None;
     ow_pick := CaseOpened; ow_preempt_add := None |}.

(** ** Vocabulary for the further properties *)

(** The IDs the connection has asked [CreateDataChannel] for, in order. *)
Definition created (t : list event) : list Z :=
  omap (λ e, match e with EvCreateDataChannel id => Some id | _ => None end) t.

(** Between calls the "closed" indicators of a connection agree: either no
    close has gone through the guard, the signal is silent, no reason is
    recorded and the table is a map; or the close is complete. *)
Definition coherent (c : connection) : Prop :=
  if closeOnce c then ∃ k, closed_with (close_reason k) c
  else ctx_done c = false ∧ closeErr c = None ∧ is_Some (streams c).

(** A stream's teardown callback: the closure built in [OpenStream] and
    [AcceptStream] calls [c.removeStream] with the ID it captured. *)
Definition fire_onDone (str : stream) (c : connection) : connection :=
  removeStream (onDone str) c.

(** [mild c c']: a quiet step that moreover keeps a non-nil table non-nil,
    keeps the capacity of the accept queue and does not overfill it. *)
Definition mild (c c' : connection) : Prop :=
  quiet c c' ∧
  (is_Some (streams c) → is_Some (streams c')) ∧
  chan_cap (acceptQueue c') = chan_cap (acceptQueue c) ∧
  ((length (chan_buf (acceptQueue c)) ≤ chan_cap (acceptQueue c))%nat →
   (length (chan_buf (acceptQueue c')) ≤ chan_cap (acceptQueue c'))%nat).

Inductive move : connection → connection → Prop :=
  | move_mild c c' : mild c c' → move c c'
  | move_close k c : move c (call_close k c).2.

(** One remote channel reaching the bridge: the channel, what [dc.Detach()]
    returns for it and what [w.WriteMsg] would return. *)
Record arrival : Set :=
  { ar_channel : DataChannel;
    ar_detach : ReadWriteCloser * option error;
    ar_write : option error }.

(** The [OnOpen] callback run for a series of remote channels, with the
    events of all the runs. *)
Definition bridge_all (arrivals : list arrival) (q : chan) : chan * list event :=
  foldl (λ '(q, evs) a,
           let '(q', evs') := onOpen (ar_channel a) (ar_detach a) (ar_write a) q in
           (q', evs ++ evs'))
        (q, []) arrivals.

(** The arrivals whose detach succeeded, as the bridge would enqueue them. *)
Definition detached (arrivals : list arrival) : list DetachedDataChannel :=
  omap (λ a, match ar_detach a with
             | (rwc, None) => Some {| dd_stream := rwc; dd_channel := ar_channel a |}
             | (_, Some _) => None
             end) arrivals.

(** What the bridge does to a detached channel it cannot enqueue. *)
Definition rejection (d : DetachedDataChannel) : list event :=
  [EvWriteMsg (dd_stream d) {| Flag := Some Message_RESET |}; EvRwcClose (dd_stream d)].

(** The parity the constructor gives the counter. *)
Definition start_parity (direction : Direction) : Z :=
  match direction with
  | DirInbound => 1
  | _ => 0
  end.

(** * Properties *)

(** ** Projections of the elementary updates *)

Lemma wrap_int32_id (z : Z) : is_int32 z → wrap_int32 z = z.
Proof.
  unfold is_int32, wrap_int32. intros H.
  rewrite Z.mod_small by lia. lia.
Qed.

Lemma wrap_int32_range (z : Z) : is_int32 (wrap_int32 z).
Proof.
  unfold is_int32, wrap_int32.
  pose proof (Z.mod_pos_bound (z + 2 ^ 31) (2 ^ 32) ltac:(lia)). lia.
Qed.

(** [Add(2) - 2] is the value the counter had before the call. *)
Lemma post_increment (v : Z) :
  is_int32 v → wrap_int32 (wrap_int32 (v + 2) - 2) = v.
Proof.
  unfold is_int32, wrap_int32. intros H.
  replace (((v + 2 + 2 ^ 31) `mod` 2 ^ 32 - 2 ^ 31 - 2 + 2 ^ 31))
    with ((v + 2 + 2 ^ 31) `mod` 2 ^ 32 - 2) by lia.
  rewrite Zminus_mod_idemp_l.
  replace (v + 2 + 2 ^ 31 - 2) with (v + 2 ^ 31) by lia.
  rewrite Z.mod_small by lia. lia.
Qed.

Lemma connection_eta (c : connection) :
  c = {| closeOnce := closeOnce c; closeErr := closeErr c; streams := streams c;
         nextStreamID := nextStreamID c; acceptQueue := acceptQueue c;
         ctx_done := ctx_done c; trace := trace c |}.
Proof. by destruct c. Qed.

Lemma set_streams_same (c : connection) : set_streams (streams c) c = c.
Proof. by destruct c. Qed.

(** ** The stream table *)

Lemma table_lookup_nil (c : connection) (id : Z) :
  streams c = None → table_lookup c id = None.
Proof. unfold table_lookup. by intros ->. Qed.

Lemma table_lookup_some (c : connection) (m : gmap Z stream) (id : Z) :
  streams c = Some m → table_lookup c id = m !! id.
Proof. unfold table_lookup. by intros ->. Qed.

Lemma addStream_same_but_streams (str : stream) (c : connection) :
  same_but_streams c (addStream str c).2.
Proof.
  unfold addStream, same_but_streams.
  destruct (streams c) as [m|]; [destruct (m !! stream_id str)|]; done.
Qed.

Lemma addStream_well_keyed (str : stream) (c : connection) :
  well_keyed c → well_keyed (addStream str c).2.
Proof.
  unfold addStream. intros Hwk.
  destruct (streams c) as [m|] eqn:Hs; [|done].
  destruct (m !! stream_id str) eqn:Hl; [done|].
  intros id s. unfold table_lookup. cbn.
  destruct (decide (stream_id str = id)) as [<-|Hne].
  - rewrite lookup_insert_eq. by intros [= <-].
  - rewrite lookup_insert_ne by done. intros H. apply Hwk.
    by rewrite (table_lookup_some _ _ _ Hs).
Qed.

Lemma removeStream_well_keyed (id : Z) (c : connection) :
  well_keyed c → well_keyed (removeStream id c).
Proof.
  intros Hwk j s. unfold table_lookup, removeStream. cbn.
  destruct (streams c) as [m|] eqn:Hs; [|done]. cbn.
  intros H. apply lookup_delete_Some in H as [_ H].
  apply Hwk. by rewrite (table_lookup_some _ _ _ Hs).
Qed.

(** In a well-keyed table no two entries hold streams with the same ID. *)
Lemma well_keyed_NoDup (c : connection) :
  well_keyed c → NoDup (stream_id <$> registered c).
Proof.
  unfold registered, range_streams. intros Hwk.
  destruct (streams c) as [m|] eqn:Hs; [|constructor].
  replace (stream_id <$> (map_to_list m).*2) with ((map_to_list m).*1).
  - apply NoDup_fst_map_to_list.
  - rewrite <- list_fmap_compose. apply list_fmap_ext.
    intros i [k s] Hin%list_elem_of_lookup_2%elem_of_map_to_list.
    cbn. symmetry. apply Hwk. by rewrite (table_lookup_some _ _ _ Hs).
Qed.

(** ** Every entry point is made of quiet steps and complete closes *)

Lemma quiet_refl (c : connection) : quiet c c.
Proof.
  repeat split; auto. exists []. by rewrite app_nil_r.
Qed.

Lemma quiet_trans (c1 c2 c3 : connection) :
  quiet c1 c2 → quiet c2 c3 → quiet c1 c3.
Proof.
  intros (Ho & He & Hd & Hn & Hk & evs & Ht & Hb)
         (Ho' & He' & Hd' & Hn' & Hk' & evs' & Ht' & Hb').
  repeat split; try congruence; auto.
  - intros id str H. destruct (Hk' _ _ H) as [H'|H']; auto.
  - exists (evs ++ evs'). split.
    + rewrite Ht', Ht. by rewrite app_assoc.
    + rewrite forallb_app. by rewrite Hb, Hb'.
Qed.

Lemma quiet_set_nextStreamID (n : Z) (c : connection) :
  quiet c (set_nextStreamID n c).
Proof.
  repeat split; auto. exists []. by rewrite app_nil_r.
Qed.

Lemma quiet_set_acceptQueue (q : chan) (c : connection) :
  quiet c (set_acceptQueue q c).
Proof.
  repeat split; auto. exists []. by rewrite app_nil_r.
Qed.

Lemma quiet_emit (evs : list event) (c : connection) :
  forallb (λ e, negb (close_event e)) evs = true → quiet c (emit evs c).
Proof. intros H. repeat split; auto. by exists evs. Qed.

Lemma quiet_addStream (str : stream) (c : connection) :
  quiet c (addStream str c).2.
Proof.
  unfold addStream.
  destruct (streams c) as [m|] eqn:Hs; [|apply quiet_refl].
  destruct (m !! stream_id str) eqn:Hl; [apply quiet_refl|].
  repeat split; cbn; auto; try congruence.
  - intros id s. unfold table_lookup. cbn. rewrite Hs. cbn.
    destruct (decide (stream_id str = id)) as [<-|Hne].
    + rewrite lookup_insert_eq. intros [= <-]. by right.
    + rewrite lookup_insert_ne by done. by left.
  - exists []. by rewrite app_nil_r.
Qed.

Lemma quiet_removeStream (id : Z) (c : connection) :
  quiet c (removeStream id c).
Proof.
  unfold removeStream. repeat split; cbn; auto.
  - by intros ->.
  - intros j s. unfold table_lookup. cbn.
    destruct (streams c) as [m|]; [|done]. cbn.
    intros [_ H]%lookup_delete_Some. by left.
  - exists []. by rewrite app_nil_r.
Qed.

Lemma quiet_bridge_onOpen dc detach write_err (c : connection) :
  quiet c (bridge_onOpen dc detach write_err c).
Proof.
  unfold bridge_onOpen, onOpen.
  destruct detach as [rwc [err|]].
  - eapply quiet_trans; [apply quiet_set_acceptQueue|]. by apply quiet_emit.
  - case_bool_decide.
    + eapply quiet_trans; [apply quiet_set_acceptQueue|]. by apply quiet_emit.
    + eapply quiet_trans; [apply quiet_set_acceptQueue|]. by apply quiet_emit.
Qed.

Lemma steps_quiet (c c' : connection) : quiet c c' → rtc basic c c'.
Proof. intros H. apply rtc_once. by constructor. Qed.

Lemma steps_preempt (k : option close_kind) (c : connection) :
  rtc basic c (preempt k c).
Proof.
  destruct k as [[]|]; cbn; [| |done].
  - apply rtc_once, (basic_close Graceful).
  - apply rtc_once, (basic_close TimedOut).
Qed.

(** The tail shared by [OpenStream] and [AcceptStream]: insert, and close
    the stream again when the insertion fails. *)
Lemma steps_insert (str : stream) (c : connection) :
  rtc basic c
    (match addStream str c with
     | (Some err, c) => (Returns (None, Some err), str_Close str c)
     | (None, c) => (Returns (Some str, None), c)
     end).2.
Proof.
  pose proof (quiet_addStream str c) as Hq.
  destruct (addStream str c) as [[err|] c']; cbn in *.
  - apply steps_quiet. eapply quiet_trans; [exact Hq|]. by apply quiet_emit.
  - by apply steps_quiet.
Qed.

(** Case split on the outcome of the [detachChannel] call in the goal:
    an error, a detached channel, or a call that stays blocked. *)
Ltac case_detach :=
  match goal with
  | |- context [detachChannel ?w ?c] =>
      let rwc := fresh "rwc" in
      let err := fresh "err" in
      destruct (detachChannel w c) as [[rwc [err|]]|]
  end.

Lemma steps_OpenStream (w : open_world) (c : connection) :
  rtc basic c (OpenStream w c).2.
Proof.
  unfold OpenStream. destruct (IsClosed c); [done|].
  etrans; [apply (steps_preempt (ow_preempt_alloc w))|].
  set (c1 := preempt (ow_preempt_alloc w) c).
  etrans; [apply steps_quiet, (quiet_set_nextStreamID (wrap_int32 (nextStreamID c1 + 2)))|].
  set (c2 := set_nextStreamID _ c1).
  destruct (MaxUint16 <? _); [done|].
  etrans; [apply steps_quiet, (quiet_emit [EvCreateDataChannel
             (to_uint16 (wrap_int32 (wrap_int32 (nextStreamID c1 + 2) - 2)))]); done|].
  set (c3 := emit _ c2).
  destruct (ow_create w) as [ref|err]; [|done].
  etrans; [apply (steps_preempt (ow_preempt_wait w))|].
  set (c4 := preempt (ow_preempt_wait w) c3).
  case_detach; [done| |done].
  etrans; [apply (steps_preempt (ow_preempt_add w))|].
  apply steps_insert.
Qed.

Lemma steps_AcceptStream (w : accept_world) (c : connection) :
  rtc basic c (AcceptStream w c).2.
Proof.
  unfold AcceptStream.
  assert (∀ dc rest, rtc basic c
    (match addStream (newStream (dd_channel dc) (dd_stream dc) (dc_ID (dd_channel dc)))
             (preempt (aw_preempt_add w)
                (set_acceptQueue {| chan_buf := rest;
                                    chan_cap := chan_cap (acceptQueue c) |} c)) with
     | (Some err, c) => (Returns (None, Some err),
          str_Close (newStream (dd_channel dc) (dd_stream dc) (dc_ID (dd_channel dc))) c)
     | (None, c) => (Returns (Some (newStream (dd_channel dc) (dd_stream dc)
                                      (dc_ID (dd_channel dc))), None), c)
     end).2) as Hrecv.
  { intros dc rest.
    etrans; [apply steps_quiet, (quiet_set_acceptQueue
               {| chan_buf := rest; chan_cap := chan_cap (acceptQueue c) |})|].
    etrans; [apply (steps_preempt (aw_preempt_add w))|].
    apply steps_insert. }
  destruct (ctx_done c), (chan_buf (acceptQueue c)) as [|dc rest], (aw_pick w);
    try done; apply Hrecv.
Qed.

Lemma steps_exec (o : op) (c : connection) : rtc basic c (exec o c).
Proof.
  destruct o; cbn.
  - apply rtc_once, (basic_close Graceful).
  - unfold onConnectionStateChange. destruct (failed_or_closed state); [|done].
    apply rtc_once, (basic_close TimedOut).
  - apply steps_OpenStream.
  - apply steps_AcceptStream.
  - apply steps_quiet, quiet_removeStream.
  - apply steps_quiet, quiet_bridge_onOpen.
Qed.

Lemma steps_run (os : list op) (c : connection) : rtc basic c (run os c).
Proof.
  revert c. induction os as [|o os IH]; intros c; cbn; [done|].
  etrans; [apply steps_exec|]. apply IH.
Qed.

(** ** The close body *)

Lemma emit_nil (c : connection) : emit [] c = c.
Proof. unfold emit. rewrite app_nil_r. by destruct c. Qed.

Lemma emit_emit (evs evs' : list event) (c : connection) :
  emit evs' (emit evs c) = emit (evs ++ evs') c.
Proof. unfold emit. cbn. by rewrite app_assoc. Qed.

Lemma foldl_terminate (k : close_kind) (l : list stream) (c : connection) :
  foldl (λ c str, terminate k str c) c l = emit (termination_event k <$> l) c.
Proof.
  revert c. induction l as [|s l IH]; intros c; cbn.
  - by rewrite emit_nil.
  - rewrite IH. destruct k; cbn; unfold str_Reset, str_setCloseError;
      by rewrite emit_emit.
Qed.

(** The first call through the guard runs the whole body. *)
Lemma call_close_first (k : close_kind) (c : connection) :
  closeOnce c = false →
  call_close k c =
    (None, {| closeOnce := true; closeErr := Some (close_reason k);
              streams := None; nextStreamID := nextStreamID c;
              acceptQueue := acceptQueue c; ctx_done := true;
              trace := trace c ++ close_events k (registered c) |}).
Proof.
  intros Hc. destruct k; unfold call_close, Close, closeTimedOut, Once_Do;
    rewrite Hc; cbn.
  - rewrite (foldl_terminate Graceful). unfold pc_Close, scope_Done.
    rewrite !emit_emit. unfold emit, close_events, registered. cbn.
    do 2 f_equal. by rewrite <- !app_assoc.
  - rewrite (foldl_terminate TimedOut). unfold pc_Close, scope_Done.
    rewrite !emit_emit. unfold emit, close_events, registered. cbn.
    do 2 f_equal. by rewrite <- !app_assoc.
Qed.

(** Every later call finds the guard taken and does nothing. *)
Lemma call_close_again (k : close_kind) (c : connection) :
  closeOnce c = true → call_close k c = (None, c).
Proof.
  intros Hc. destruct k; unfold call_close, Close, closeTimedOut, Once_Do;
    by rewrite Hc.
Qed.

Lemma call_close_returns_nil (k : close_kind) (c : connection) :
  (call_close k c).1 = None.
Proof. by destruct k. Qed.

Lemma call_close_closeOnce (k : close_kind) (c : connection) :
  closeOnce (call_close k c).2 = true.
Proof.
  destruct (closeOnce c) eqn:Hc.
  - by rewrite call_close_again.
  - by rewrite call_close_first.
Qed.

(** The statement-by-statement program is the body of the source functions. *)
Lemma close_steps_loop (k : close_kind) (l : list stream) (c : connection) :
  close_steps (length l + 3) k (AtLoop l) c =
    (AtReturn, scope_Done (pc_Close (foldl (λ c str, terminate k str c) c l))).
Proof.
  revert c. induction l as [|s l IH]; intros c; [done|]. cbn. apply IH.
Qed.

Lemma close_steps_complete (k : close_kind) (c : connection) :
  closeOnce c = false →
  close_steps (length (registered c) + 6) k AtWriteErr (set_closeOnce true c)
    = (AtReturn, (call_close k c).2).
Proof.
  intros Hc.
  replace (length (registered c) + 6)%nat
    with (S (S (S (length (registered c) + 3)))) by lia.
  cbn. rewrite close_steps_loop.
  destruct k; unfold call_close, Close, closeTimedOut, Once_Do; by rewrite Hc.
Qed.

(** ** Counting events *)

Lemma occurrences_app (e : event) (t1 t2 : list event) :
  occurrences e (t1 ++ t2) = (occurrences e t1 + occurrences e t2)%nat.
Proof. unfold occurrences. by rewrite filter_app, length_app. Qed.

Lemma occurrences_cons (e x : event) (t : list event) :
  occurrences e (x :: t) = ((if decide (x = e) then 1 else 0) + occurrences e t)%nat.
Proof.
  unfold occurrences. rewrite filter_cons. by destruct (decide (x = e)).
Qed.

Lemma occurrences_0 (e : event) (t : list event) :
  e ∉ t → occurrences e t = 0%nat.
Proof.
  induction t as [|x t IH]; [done|].
  intros [Hne Hnin]%not_elem_of_cons. rewrite occurrences_cons, IH by done.
  by rewrite decide_False.
Qed.

Lemma termination_event_inj (k : close_kind) : Inj (=) (=) (termination_event k).
Proof. intros s s'. destruct k; cbn; congruence. Qed.

Lemma occurrences_termination (k : close_kind) (s : stream) (l : list stream) :
  NoDup l → s ∈ l → occurrences (termination_event k s) (termination_event k <$> l) = 1%nat.
Proof.
  induction 1 as [|x l Hx Hnd IH]; [by intros ?%elem_of_nil|].
  intros Hin. rewrite fmap_cons, occurrences_cons.
  apply elem_of_cons in Hin as [->|Hin].
  - rewrite decide_True by done. rewrite occurrences_0; [done|].
    intros (y & Heq & Hy)%list_elem_of_fmap.
    apply termination_event_inj in Heq. by subst.
  - rewrite decide_False; [by rewrite IH|].
    intros Heq%termination_event_inj. by subst.
Qed.

Lemma registered_NoDup (c : connection) : well_keyed c → NoDup (registered c).
Proof. intros H. eapply NoDup_fmap_1, well_keyed_NoDup, H. Qed.

(** The registered streams are the values of the table. *)
Lemma elem_of_registered (str : stream) (c : connection) :
  str ∈ registered c ↔ ∃ id, table_lookup c id = Some str.
Proof.
  unfold registered, range_streams, table_lookup.
  destruct (streams c) as [m|]; cbn.
  - rewrite list_elem_of_fmap. split.
    + intros ([id s] & -> & Hin%elem_of_map_to_list). by exists id.
    + intros (id & Hl). exists (id, str). split; [done|].
      by apply elem_of_map_to_list.
  - split; [by intros ?%elem_of_nil|by intros (? & ?)].
Qed.

Lemma termination_not_lifecycle (k : close_kind) (e : event) (l : list stream) :
  lifecycle_event e = true → e ∉ termination_event k <$> l.
Proof.
  intros He (s & -> & _)%list_elem_of_fmap. by destruct k.
Qed.

(** One run of the close body records the reason, cancels, closes the
    session and releases the accounting handle once each. *)
Lemma occurrences_close_events (k : close_kind) (l : list stream) :
  (∀ e, occurrences (EvWriteCloseErr e) (close_events k l)
          = if decide (e = close_reason k) then 1%nat else 0%nat) ∧
  occurrences EvCancel (close_events k l) = 1%nat ∧
  occurrences EvPcClose (close_events k l) = 1%nat ∧
  occurrences EvScopeDone (close_events k l) = 1%nat.
Proof.
  unfold close_events. repeat split; [intros e|..];
    rewrite !occurrences_app, !occurrences_cons;
    rewrite (occurrences_0 _ (_ <$> _)) by (by apply termination_not_lifecycle);
    unfold occurrences; cbn; try done.
  destruct (decide (e = close_reason k)) as [->|Hne].
  - by rewrite decide_True.
  - rewrite decide_False; [done|congruence].
Qed.

Lemma close_calls_again (ks : list close_kind) (c : connection) :
  closeOnce c = true → close_calls ks c = (replicate (length ks) None, c).
Proof.
  intros Hc. induction ks as [|k ks IH]; [done|].
  cbn. by rewrite call_close_again, IH.
Qed.

(** C1.  Whatever the number and order of the calls to [Close] and
    [closeTimedOut], every call returns nil and the connection ends in the
    state the first call alone produces: the later calls change nothing.  The
    first call records its own reason and, once each, cancels the lifecycle
    context, closes the peer connection and releases the scope; it nils the
    stream table and terminates every stream that the table held under some
    ID, each exactly once when the table is keyed by stream ID, and no other
    stream. *)
Theorem Close_idempotent (k : close_kind) (ks : list close_kind) (c : connection) :
  closeOnce c = false →
  let final := (close_calls (k :: ks) c).2 in
  (close_calls (k :: ks) c).1 = replicate (S (length ks)) None ∧
  final = (call_close k c).2 ∧
  closeErr final = Some (close_reason k) ∧
  IsClosed final = true ∧
  streams final = None ∧
  ∃ evs, trace final = trace c ++ evs ∧
    (∀ e, occurrences (EvWriteCloseErr e) evs
            = if decide (e = close_reason k) then 1%nat else 0%nat) ∧
    occurrences EvCancel evs = 1%nat ∧
    occurrences EvPcClose evs = 1%nat ∧
    occurrences EvScopeDone evs = 1%nat ∧
    (∀ id str, table_lookup c id = Some str → termination_event k str ∈ evs) ∧
    (∀ str, termination_event k str ∈ evs → ∃ id, table_lookup c id = Some str) ∧
    (well_keyed c → ∀ id str, table_lookup c id = Some str →
       occurrences (termination_event k str) evs = 1%nat).
Proof.
  intros Hc. cbn zeta.
  assert (close_calls (k :: ks) c
          = (replicate (S (length ks)) None, (call_close k c).2)) as ->.
  { cbn. pose proof (call_close_closeOnce k c) as Hd.
    pose proof (call_close_returns_nil k c) as Hn.
    destruct (call_close k c) as [r c']. cbn in *. subst r.
    by rewrite close_calls_again. }
  rewrite (call_close_first k c Hc). cbn.
  repeat split. exists (close_events k (registered c)). repeat split.
  - apply occurrences_close_events.
  - apply occurrences_close_events.
  - apply occurrences_close_events.
  - apply occurrences_close_events.
  - intros id str Hl.
    assert (str ∈ registered c) as Hin by (apply elem_of_registered; by exists id).
    unfold close_events.
    apply elem_of_app; right. apply elem_of_app; left.
    by apply list_elem_of_fmap_2.
  - intros str Hin. apply elem_of_registered.
    unfold close_events in Hin.
    apply elem_of_app in Hin as [Hin|Hin].
    { apply elem_of_cons in Hin as [Hin|Hin]; [by destruct k|].
      apply list_elem_of_singleton in Hin. by destruct k. }
    apply elem_of_app in Hin as [Hin|Hin].
    { apply list_elem_of_fmap in Hin as (s' & Heq & Hs').
      apply termination_event_inj in Heq. by subst. }
    apply elem_of_cons in Hin as [Hin|Hin]; [by destruct k|].
    apply list_elem_of_singleton in Hin. by destruct k.
  - intros Hwk id str Hl.
    assert (str ∈ registered c) as Hin by (apply elem_of_registered; by exists id).
    unfold close_events.
    rewrite !occurrences_app.
    rewrite (occurrences_termination k str) by auto using registered_NoDup.
    unfold occurrences; cbn. by destruct k.
Qed.

Lemma Close_idempotent_witness :
  let final := (close_calls [TimedOut; Graceful; TimedOut] sample_conn).2 in
  (close_calls [TimedOut; Graceful; TimedOut] sample_conn).1 = [None; None; None] ∧
  closeErr final = Some (ErrTimeout mk_errConnectionTimeout) ∧
  ∃ evs, trace final = trace sample_conn ++ evs ∧ occurrences EvScopeDone evs = 1%nat ∧
    EvSetCloseError (sample_stream 4) (ErrTimeout mk_errConnectionTimeout) ∈ evs.
Proof.
  destruct (Close_idempotent TimedOut [Graceful; TimedOut] sample_conn eq_refl)
    as (Hr & _ & He & _ & _ & evs & Ht & _ & _ & _ & Hd & Hterm & _).
  split; [exact Hr|]. split; [exact He|]. exists evs.
  split; [exact Ht|]. split; [exact Hd|].
  exact (Hterm 4 (sample_stream 4) eq_refl).
Defined.

(** ** The two close paths and the live streams *)

Lemma elem_of_close_events (k : close_kind) (l : list stream) (e : event) :
  e ∈ close_events k l ↔
    e = EvWriteCloseErr (close_reason k) ∨ e = EvCancel ∨
    (∃ str, str ∈ l ∧ e = termination_event k str) ∨
    e = EvPcClose ∨ e = EvScopeDone.
Proof.
  unfold close_events.
  rewrite !elem_of_app, !elem_of_cons, elem_of_nil, list_elem_of_fmap.
  split.
  - intros [[?|[?|[]]]|[(str & ? & ?)|[?|[?|[]]]]]; eauto 8.
  - intros [?|[?|[(str & ? & ?)|[?|?]]]]; eauto 8.
Qed.

(** C5.  On a connection that is not yet closed, [closeTimedOut] calls
    [setCloseError] with the timeout error on every stream the table holds
    under some ID and resets none, whereas [Close] calls [Reset] on every
    stream the table holds and sets no close error; no stream outside the
    table is touched, and either way the table is nil afterwards, with no
    entry under any ID.  The timeout error reports [Timeout() = true],
    [Temporary() = false] and the message "connection timeout". *)
Theorem close_paths_terminate_streams (c : connection) :
  closeOnce c = false →
  (∃ evs, trace (closeTimedOut c).2 = trace c ++ evs ∧
     (∀ id str, table_lookup c id = Some str →
        EvSetCloseError str (ErrTimeout mk_errConnectionTimeout) ∈ evs) ∧
     (∀ str e, EvSetCloseError str e ∈ evs →
        (∃ id, table_lookup c id = Some str) ∧
        e = ErrTimeout mk_errConnectionTimeout) ∧
     (∀ str, EvReset str ∉ evs)) ∧
  (∃ evs, trace (Close c).2 = trace c ++ evs ∧
     (∀ id str, table_lookup c id = Some str → EvReset str ∈ evs) ∧
     (∀ str, EvReset str ∈ evs → ∃ id, table_lookup c id = Some str) ∧
     (∀ str e, EvSetCloseError str e ∉ evs)) ∧
  (streams (closeTimedOut c).2 = None ∧
   ∀ id, table_lookup (closeTimedOut c).2 id = None) ∧
  (streams (Close c).2 = None ∧ ∀ id, table_lookup (Close c).2 id = None) ∧
  errConnectionTimeout_Timeout mk_errConnectionTimeout = true ∧
  errConnectionTimeout_Temporary mk_errConnectionTimeout = false ∧
  Error (ErrTimeout mk_errConnectionTimeout) = "connection timeout"%string.
Proof.
  intros Hc.
  pose proof (call_close_first TimedOut c Hc) as HT.
  pose proof (call_close_first Graceful c Hc) as HG.
  cbn [call_close] in HT, HG. rewrite HT, HG. cbn [snd trace streams].
  split; [|split]; [| |done].
  - exists (close_events TimedOut (registered c)). split; [done|].
    split; [|split].
    + intros id str Hl. apply elem_of_close_events. right; right; left.
      exists str. split; [|done]. apply elem_of_registered. by exists id.
    + intros str e [H|[H|[(s' & Hin & H)|[H|H]]]]%elem_of_close_events;
        try discriminate.
      cbn in H. injection H as -> ->. split; [|done].
      by apply elem_of_registered.
    + intros str [H|[H|[(s' & Hin & H)|[H|H]]]]%elem_of_close_events;
        discriminate.
  - exists (close_events Graceful (registered c)). split; [done|].
    split; [|split].
    + intros id str Hl. apply elem_of_close_events. right; right; left.
      exists str. split; [|done]. apply elem_of_registered. by exists id.
    + intros str [H|[H|[(s' & Hin & H)|[H|H]]]]%elem_of_close_events;
        try discriminate.
      cbn in H. injection H as ->. by apply elem_of_registered.
    + intros str e [H|[H|[(s' & Hin & H)|[H|H]]]]%elem_of_close_events;
        discriminate.
Qed.

Lemma close_paths_terminate_streams_witness :
  ∃ evs, trace (closeTimedOut sample_conn).2 = trace sample_conn ++ evs ∧
    EvSetCloseError (sample_stream 2) (ErrTimeout mk_errConnectionTimeout) ∈ evs ∧
    EvSetCloseError (sample_stream 4) (ErrTimeout mk_errConnectionTimeout) ∈ evs.
Proof.
  destruct (close_paths_terminate_streams sample_conn eq_refl)
    as ((evs & Ht & Hall & _) & _).
  exists evs. split; [exact Ht|]. split.
  - exact (Hall 2 (sample_stream 2) eq_refl).
  - exact (Hall 4 (sample_stream 4) eq_refl).
Defined.

(** ** Insertion and removal *)

(** C7.  [addStream] on a nil table returns the recorded close error and
    changes nothing; on a table that already has the stream's ID it returns
    the collision error and changes nothing; otherwise it returns nil and the
    table gains the stream under its ID, nothing else changing.  Hence a nil
    table stays nil under every sequence of entry points, and a table keyed
    by stream ID stays so: no two of its entries hold the same ID. *)
Theorem addStream_cases (str : stream) (c : connection) :
  (streams c = None → addStream str c = (closeErr c, c)) ∧
  (∀ m, streams c = Some m → is_Some (m !! stream_id str) →
     addStream str c = (Some (ErrNew "stream ID already exists"), c)) ∧
  (∀ m, streams c = Some m → m !! stream_id str = None →
     (addStream str c).1 = None ∧
     streams (addStream str c).2 = Some (<[stream_id str := str]> m) ∧
     same_but_streams c (addStream str c).2) ∧
  (streams c = None → ∀ os, streams (run os (addStream str c).2) = None) ∧
  (well_keyed c →
     well_keyed (addStream str c).2 ∧
     NoDup (stream_id <$> registered (addStream str c).2)).
Proof.
  split; [|split; [|split; [|split]]].
  - unfold addStream. by intros ->.
  - unfold addStream. intros m -> [old ->]. done.
  - intros m Hs Hl. pose proof (addStream_same_but_streams str c) as Hf.
    unfold addStream in *. rewrite Hs, Hl in *. done.
  - intros Hs os. unfold addStream. rewrite Hs. cbn.
    pose proof (steps_run os c) as Hsteps.
    induction Hsteps as [c|c c1 c2 Hb _ IH]; [done|].
    apply IH. destruct Hb as [c c' (_ & _ & _ & Hn & _)|k c]; [auto|].
    destruct (closeOnce c) eqn:Hc.
    + by rewrite call_close_again.
    + by rewrite call_close_first.
  - intros Hwk. pose proof (addStream_well_keyed str c Hwk) as Hwk'.
    split; [done|]. by apply well_keyed_NoDup.
Qed.

Lemma addStream_cases_witness :
  addStream (sample_stream 4) sample_conn
    = (Some (ErrNew "stream ID already exists"), sample_conn) ∧
  (addStream (sample_stream 6) sample_conn).1 = None ∧
  addStream (sample_stream 6) (Close sample_conn).2
    = (Some (ErrNew "connection closed"), (Close sample_conn).2).
Proof.
  destruct (addStream_cases (sample_stream 4) sample_conn) as (_ & Hdup & _).
  destruct (addStream_cases (sample_stream 6) sample_conn) as (_ & _ & Hnew & _).
  destruct (addStream_cases (sample_stream 6) (Close sample_conn).2) as (Hnil & _).
  split; [|split].
  - apply (Hdup _ eq_refl). by exists (sample_stream 4).
  - by apply (Hnew _ eq_refl).
  - by apply Hnil.
Defined.

(** C9.  [removeStream id] leaves no entry under [id], leaves the entry of
    every other ID as it was, keeps a nil table nil and a non-nil table
    non-nil, and changes no other field: not the guard, the close error, the
    lifecycle signal, the counter, the queue or the trace.  When the table is
    nil or has no entry under [id], the connection is left exactly as it
    was. *)
Theorem removeStream_frame (id : Z) (c : connection) :
  table_lookup (removeStream id c) id = None ∧
  (∀ j, j ≠ id → table_lookup (removeStream id c) j = table_lookup c j) ∧
  (streams (removeStream id c) = None ↔ streams c = None) ∧
  same_but_streams c (removeStream id c) ∧
  (table_lookup c id = None → removeStream id c = c).
Proof.
  unfold removeStream, table_lookup. cbn.
  split; [|split; [|split; [|split]]].
  - destruct (streams c) as [m|]; cbn; [apply lookup_delete_eq|done].
  - intros j Hne. destruct (streams c) as [m|]; cbn; [|done].
    by apply lookup_delete_ne.
  - by destruct (streams c).
  - done.
  - intros Hl.
    assert (delete id <$> streams c = streams c) as ->; [|apply set_streams_same].
    destruct (streams c) as [m|]; cbn in *; [|done].
    f_equal. by apply delete_id.
Qed.

Lemma removeStream_frame_witness :
  removeStream 8 sample_conn = sample_conn ∧
  removeStream 2 (Close sample_conn).2 = (Close sample_conn).2 ∧
  table_lookup (removeStream 2 sample_conn) 4 = Some (sample_stream 4).
Proof.
  destruct (removeStream_frame 8 sample_conn) as (_ & _ & _ & _ & H8).
  destruct (removeStream_frame 2 (Close sample_conn).2) as (_ & _ & _ & _ & Hnil).
  destruct (removeStream_frame 2 sample_conn) as (_ & Hother & _).
  split; [|split].
  - by apply H8.
  - by apply Hnil.
  - rewrite Hother; [reflexivity|lia].
Defined.

(** ** After the close *)

Lemma closed_with_basic (e : error) (c c' : connection) :
  basic c c' → closed_with e c → closed_with e c'.
Proof.
  intros [c1 c2 (Ho & He & Hd & Hn & _)|k c1] (H1 & H2 & H3 & H4).
  - repeat split; [congruence..|auto].
  - by rewrite call_close_again.
Qed.

Lemma closed_with_steps (e : error) (c c' : connection) :
  rtc basic c c' → closed_with e c → closed_with e c'.
Proof. induction 1; eauto using closed_with_basic. Qed.

Lemma settled_basic (c c' : connection) : basic c c' → settled c → settled c'.
Proof.
  intros [c1 c2 Hq|k c1]; unfold settled.
  - destruct (closeOnce c1) eqn:Hc.
    + intros [k Hk]. pose proof (closed_with_basic _ _ _ (basic_quiet _ _ Hq) Hk) as Hk'.
      rewrite (proj1 Hk'). by exists k.
    + destruct Hq as (Ho & _ & Hd & _). rewrite Ho, Hc. congruence.
  - destruct (closeOnce c1) eqn:Hc.
    + rewrite call_close_again by done. cbn. by rewrite Hc.
    + intros _. rewrite call_close_first by done. cbn. by exists k.
Qed.

Lemma settled_steps (c c' : connection) : rtc basic c c' → settled c → settled c'.
Proof. induction 1; eauto using settled_basic. Qed.

Lemma settled_initial (direction : Direction) (q : chan) : settled (initial direction q).
Proof. done. Qed.

Lemma preempt_closed (e : error) (k : option close_kind) (c : connection) :
  closed_with e c → preempt k c = c.
Proof.
  intros (Hc & _). destruct k as [k|]; [|done].
  pose proof (call_close_again k c Hc) as H.
  destruct k; unfold preempt; cbn [call_close] in H; by rewrite H.
Qed.

Lemma OpenStream_closed (e : error) (w : open_world) (c : connection) :
  closed_with e c → OpenStream w c = (Returns (None, Some e), c).
Proof.
  intros (_ & Hd & He & _). unfold OpenStream, IsClosed. by rewrite Hd, He.
Qed.

Lemma AcceptStream_closed (e : error) (w : accept_world) (c : connection) :
  closed_with e c → (AcceptStream w c).1 = Returns (None, Some e).
Proof.
  intros Hcl. pose proof Hcl as (Ho & Hd & He & Hs).
  unfold AcceptStream. rewrite Hd.
  destruct (chan_buf (acceptQueue c)) as [|dc rest]; [by rewrite He|].
  destruct (aw_pick w); [by rewrite He|].
  rewrite (preempt_closed e) by done.
  unfold addStream. cbn. by rewrite Hs, He.
Qed.

(** C2.  Once a call to [Close] or [closeTimedOut] has returned, the
    connection holds one close error [e], and whatever happens next (further
    opens and accepts, closes, stream teardowns, remote channels arriving in
    the accept queue), every [OpenStream] and every [AcceptStream] returns
    that same [e] with no stream, whichever case its [select] takes and
    whatever the queue holds.  [e] is the reason of the call that won the
    guard. *)
Theorem closed_calls_return_closeErr (k : close_kind) (os1 : list op)
    (c0 : connection) :
  settled c0 →
  let c1 := (call_close k (run os1 c0)).2 in
  ∃ e, closed_with e c1 ∧
    (closeOnce (run os1 c0) = false → e = close_reason k) ∧
    ∀ (os2 : list op) (wo : open_world) (wa : accept_world),
      let c := run os2 c1 in
      closeErr c = Some e ∧
      (OpenStream wo c).1 = Returns (None, Some e) ∧
      (AcceptStream wa c).1 = Returns (None, Some e).
Proof.
  intros H0. cbn zeta.
  assert (settled (run os1 c0)) as H1 by eauto using settled_steps, steps_run.
  assert (∃ e, closed_with e (call_close k (run os1 c0)).2 ∧
               (closeOnce (run os1 c0) = false → e = close_reason k))
    as (e & Hcl & Hk).
  { unfold settled in H1. destruct (closeOnce (run os1 c0)) eqn:Hc.
    - destruct H1 as [k' Hk']. exists (close_reason k').
      by rewrite call_close_again.
    - exists (close_reason k). by rewrite call_close_first. }
  exists e. split; [done|]. split; [done|].
  intros os2 wo wa.
  pose proof (closed_with_steps e _ _ (steps_run os2 _) Hcl) as Hcl'.
  split; [apply Hcl'|]. split.
  - by rewrite (OpenStream_closed e).
  - by apply AcceptStream_closed.
Qed.

Lemma closed_calls_return_closeErr_witness :
  let pending := OpRemoteChannel (sample_channel 1) (Some 1%nat, None) None in
  let c := run [pending] (closeTimedOut (initial DirOutbound sample_queue)).2 in
  chan_buf (acceptQueue c)
    = [ {| dd_stream := Some 1%nat; dd_channel := sample_channel 1 |} ] ∧
  (AcceptStream {| aw_pick := CaseQueue; aw_preempt_add := None |} c).1
    = Returns (None, Some (ErrTimeout mk_errConnectionTimeout)) ∧
  (OpenStream calm c).1 = Returns (None, Some (ErrTimeout mk_errConnectionTimeout)).
Proof.
  destruct (closed_calls_return_closeErr TimedOut [] (initial DirOutbound sample_queue)
              (settled_initial _ _)) as (e & Hcl & He & Hall).
  rewrite (He eq_refl) in Hall.
  destruct (Hall [OpRemoteChannel (sample_channel 1) (Some 1%nat, None) None] calm
              {| aw_pick := CaseQueue; aw_preempt_add := None |}) as (_ & Ho & Ha).
  split; [reflexivity|]. split; [exact Ha|exact Ho].
Defined.

(** ** The order of the reason and the signal *)

Lemma lifecycle_app (t1 t2 : list event) :
  lifecycle (t1 ++ t2) = lifecycle t1 ++ lifecycle t2.
Proof. apply filter_app. Qed.

Lemma lifecycle_quiet (evs : list event) :
  forallb (λ e, negb (close_event e)) evs = true → lifecycle evs = [].
Proof.
  induction evs as [|e evs IH]; [done|].
  intros [He Hevs]%andb_prop. unfold lifecycle. rewrite filter_cons.
  fold (lifecycle evs). rewrite IH by done.
  by destruct e.
Qed.

Lemma lifecycle_termination (k : close_kind) (l : list stream) :
  lifecycle (termination_event k <$> l) = [].
Proof. induction l as [|s l IH]; [done|]. by destruct k. Qed.

Lemma lifecycle_close_events (k : close_kind) (l : list stream) :
  lifecycle (close_events k l)
    = [EvWriteCloseErr (close_reason k); EvCancel; EvPcClose; EvScopeDone].
Proof.
  unfold close_events. rewrite !lifecycle_app, lifecycle_termination. done.
Qed.

Lemma sys_inv_basic (cl : option (close_kind * close_pc)) (c c' : connection) :
  basic c c' →
  sys_inv {| conn := c; closer := cl |} → sys_inv {| conn := c'; closer := cl |}.
Proof.
  intros [c1 c2 (Ho & He & Hd & Hn & _ & evs & Ht & Hq)|k c1];
    intros (n & r & Hl & Hr & Hc & Hm); cbn in *.
  - exists n, r. cbn. rewrite Ht, lifecycle_app, (lifecycle_quiet evs Hq), app_nil_r.
    rewrite He, Hd, Ho. repeat split; try done.
    destruct (closeOnce c1), cl as [[k pc]|]; try done.
    + destruct Hm as (? & ? & ?). auto.
    + destruct Hm as (? & ?). auto.
  - destruct (closeOnce c1) eqn:Hg.
    + rewrite call_close_again by done. exists n, r. cbn. by rewrite Hg.
    + destruct cl; [done|]. subst n. cbn in Hl.
      rewrite call_close_first by done.
      exists 4%nat, (close_reason k). cbn [conn closer trace closeErr ctx_done closeOnce streams snd].
      by rewrite lifecycle_app, Hl, lifecycle_close_events.
Qed.

Lemma sys_inv_steps (cl : option (close_kind * close_pc)) (c c' : connection) :
  rtc basic c c' →
  sys_inv {| conn := c; closer := cl |} → sys_inv {| conn := c'; closer := cl |}.
Proof. induction 1; eauto using sys_inv_basic. Qed.

Lemma sys_inv_step (s s' : system) : sys_step s s' → sys_inv s → sys_inv s'.
Proof.
  intros [k c Hg|k pc c Hpc|o c cl].
  - intros (n & r & Hl & Hr & Hc & Hm). cbn in *. rewrite Hg in Hm. subst n.
    by exists 0%nat, (close_reason k).
  - intros (n & r & Hl & Hr & Hc & Hm). cbn in *.
    destruct (closeOnce c) eqn:Hg; [|done]. destruct Hm as (-> & -> & Hs).
    destruct pc as [| | |[|str rest]| | |]; cbn in *; try done.
    + exists 1%nat, (close_reason k). cbn.
      rewrite lifecycle_app, Hl, Hg, Hc. repeat split; auto.
    + exists 2%nat, (close_reason k). cbn.
      rewrite lifecycle_app, Hl, Hg. repeat split; auto.
    + exists 2%nat, (close_reason k). cbn. rewrite Hl, Hg, Hr, Hc. repeat split; auto.
    + exists 2%nat, (close_reason k). cbn. rewrite Hl, Hg, Hr, Hc. repeat split; auto.
    + exists 2%nat, (close_reason k).
      destruct k; cbn; rewrite lifecycle_app, Hl, Hg, Hr, Hc; repeat split; auto.
    + exists 3%nat, (close_reason k). cbn.
      rewrite lifecycle_app, Hl, Hg, Hr, Hc. repeat split; auto.
    + exists 4%nat, (close_reason k). cbn.
      rewrite lifecycle_app, Hl, Hg, Hr, Hc. repeat split; auto.
  - apply sys_inv_steps, steps_exec.
Qed.

Lemma sys_inv_reachable (s s' : system) : rtc sys_step s s' → sys_inv s → sys_inv s'.
Proof. induction 1; eauto using sys_inv_step. Qed.

Lemma sys_inv_fresh (c : connection) :
  fresh c → sys_inv {| conn := c; closer := None |}.
Proof.
  intros (Hg & He & Hd & Ht). exists 0%nat, (ErrNew ""). cbn.
  by rewrite Hg, He, Hd, Ht.
Qed.

Lemma fresh_initial (direction : Direction) (q : chan) : fresh (initial direction q).
Proof. done. Qed.

Lemma lifecycle_cons (e : event) (t : list event) :
  lifecycle (e :: t) = if lifecycle_event e then e :: lifecycle t else lifecycle t.
Proof.
  unfold lifecycle. rewrite filter_cons. by destruct (lifecycle_event e).
Qed.

Lemma filter_write_lifecycle (t : list event) :
  filter (λ e, is_write e = true) t = filter (λ e, is_write e = true) (lifecycle t).
Proof.
  induction t as [|e t IH]; [done|].
  rewrite lifecycle_cons, filter_cons.
  destruct e; cbn [lifecycle_event is_write]; rewrite ?filter_cons;
    cbn [is_write]; by rewrite IH.
Qed.

Lemma reason_first_lifecycle (seen : bool) (t : list event) :
  reason_first seen t = reason_first seen (lifecycle t).
Proof.
  revert seen. induction t as [|e t IH]; intros seen; [done|].
  rewrite lifecycle_cons.
  destruct e; cbn [lifecycle_event reason_first is_cancel is_write];
    rewrite ?orb_false_r; by rewrite IH.
Qed.

(** C6.  In every state that interleavings of the close body with the other
    entry points can reach from a fresh connection, [closeErr] has been
    written at most once, every cancellation in the trace comes after the
    write of the reason, and a connection whose lifecycle signal has fired
    has its close reason set.  Complete calls of [Close] and [closeTimedOut]
    are among the steps, so this holds for both paths. *)
Theorem reason_written_before_cancel (s0 s : system) :
  fresh (conn s0) → closer s0 = None → rtc sys_step s0 s →
  (length (filter (λ e, is_write e = true) (trace (conn s))) ≤ 1)%nat ∧
  reason_first false (trace (conn s)) = true ∧
  (IsClosed (conn s) = true → is_Some (closeErr (conn s))).
Proof.
  intros Hf Hcl Hr. destruct s0 as [c0 cl0]. cbn in *. subst cl0.
  pose proof (sys_inv_reachable _ _ Hr (sys_inv_fresh _ Hf))
    as (n & r & Hl & He & Hd & Hm).
  assert (n ≤ 4)%nat as Hn.
  { destruct (closeOnce (conn s)), (closer s) as [[k pc]|]; try done.
    - destruct Hm as (_ & -> & _). destruct pc; cbn; lia.
    - destruct Hm as [-> _]. lia.
    - lia. }
  rewrite filter_write_lifecycle, reason_first_lifecycle, Hl.
  split; [|split].
  - do 5 (destruct n as [|n]; [vm_compute; lia|]). lia.
  - do 5 (destruct n as [|n]; [done|]). lia.
  - unfold IsClosed. rewrite Hd, He. intros Hb%bool_decide_eq_true.
    destruct (decide (n = 0%nat)); [lia|by eexists].
Qed.

Lemma reason_written_before_cancel_witness :
  let c0 := initial DirInbound sample_queue in
  let c := cancel (write_closeErr (close_reason Graceful) (set_closeOnce true c0)) in
  IsClosed c = true ∧ is_Some (closeErr c).
Proof.
  cbn zeta.
  assert (rtc sys_step
            {| conn := initial DirInbound sample_queue; closer := None |}
            {| conn := cancel (write_closeErr (close_reason Graceful)
                         (set_closeOnce true (initial DirInbound sample_queue)));
               closer := Some (Graceful, AtTake) |}) as Hr.
  { eapply rtc_l; [apply (step_enter Graceful); reflexivity|].
    eapply rtc_l; [apply (step_closer Graceful AtWriteErr); discriminate|].
    eapply rtc_l; [apply (step_closer Graceful AtCancel); discriminate|].
    apply rtc_refl. }
  destruct (reason_written_before_cancel
              {| conn := initial DirInbound sample_queue; closer := None |} _
              (fresh_initial DirInbound sample_queue) eq_refl Hr)
    as (_ & _ & H).
  split; [reflexivity|]. apply H. reflexivity.
Defined.

(** ** The stream-ID allocator *)

Lemma nextStreamID_call_close (k : close_kind) (c : connection) :
  nextStreamID (call_close k c).2 = nextStreamID c.
Proof.
  destruct (closeOnce c) eqn:Hc.
  - by rewrite call_close_again.
  - by rewrite call_close_first.
Qed.

Lemma nextStreamID_preempt (k : option close_kind) (c : connection) :
  nextStreamID (preempt k c) = nextStreamID c.
Proof.
  destruct k as [[]|]; [| |done].
  - apply (nextStreamID_call_close Graceful).
  - apply (nextStreamID_call_close TimedOut).
Qed.

Lemma nextStreamID_addStream (str : stream) (c : connection) :
  nextStreamID (addStream str c).2 = nextStreamID c.
Proof. apply addStream_same_but_streams. Qed.

Lemma nextStreamID_insert (str : stream) (c : connection) :
  nextStreamID
    (match addStream str c with
     | (Some err, c) => (Returns (None, Some err), str_Close str c)
     | (None, c) => (Returns (Some str, None), c)
     end).2 = nextStreamID c.
Proof.
  pose proof (nextStreamID_addStream str c) as H.
  by destruct (addStream str c) as [[err|] c'].
Qed.

(** Every [OpenStream] that gets past the [IsClosed] poll adds 2 to the
    counter, whatever happens afterwards. *)
Lemma OpenStream_counter (w : open_world) (c : connection) :
  nextStreamID (OpenStream w c).2 =
    if IsClosed c then nextStreamID c else wrap_int32 (nextStreamID c + 2).
Proof.
  unfold OpenStream. destruct (IsClosed c); [done|].
  rewrite nextStreamID_preempt.
  destruct (MaxUint16 <? _); [done|].
  destruct (ow_create w) as [ref|err]; [|done].
  case_detach; cbn; rewrite ?nextStreamID_insert, ?nextStreamID_preempt; done.
Qed.

Lemma AcceptStream_counter (w : accept_world) (c : connection) :
  nextStreamID (AcceptStream w c).2 = nextStreamID c.
Proof.
  unfold AcceptStream.
  destruct (ctx_done c), (chan_buf (acceptQueue c)) as [|dc rest], (aw_pick w);
    try done; by rewrite nextStreamID_insert, nextStreamID_preempt.
Qed.

(** No entry point other than an [OpenStream] on an open connection touches
    the counter. *)
Lemma exec_counter (o : op) (c : connection) :
  nextStreamID (exec o c) =
    match o with
    | OpOpenStream _ =>
        if IsClosed c then nextStreamID c else wrap_int32 (nextStreamID c + 2)
    | _ => nextStreamID c
    end.
Proof.
  destruct o; cbn.
  - apply (nextStreamID_call_close Graceful).
  - unfold onConnectionStateChange. destruct (failed_or_closed state); [|done].
    apply (nextStreamID_call_close TimedOut).
  - apply OpenStream_counter.
  - apply AcceptStream_counter.
  - done.
  - unfold bridge_onOpen. by destruct (onOpen _ _ _ _).
Qed.

Lemma exec_is_int32 (o : op) (c : connection) :
  is_int32 (nextStreamID c) → is_int32 (nextStreamID (exec o c)).
Proof.
  intros H. rewrite exec_counter.
  destruct o; try done. destruct (IsClosed c); [done|apply wrap_int32_range].
Qed.

Lemma run_is_int32 (os : list op) (c : connection) :
  is_int32 (nextStreamID c) → is_int32 (nextStreamID (run os c)).
Proof.
  revert c. induction os as [|o os IH]; intros c H; [done|].
  cbn. by apply IH, exec_is_int32.
Qed.

Lemma initial_is_int32 (direction : Direction) (q : chan) :
  is_int32 (nextStreamID (initial direction q)).
Proof. unfold is_int32. destruct direction; cbn; lia. Qed.

(** Without wrap-around the counter never goes down, and it moves by at most
    2 per entry point. *)
Lemma run_counter_bounds (os : list op) (c : connection) :
  is_int32 (nextStreamID c) →
  nextStreamID c + 2 * Z.of_nat (length os) < 2 ^ 31 →
  nextStreamID c ≤ nextStreamID (run os c)
    ≤ nextStreamID c + 2 * Z.of_nat (length os).
Proof.
  revert c. induction os as [|o os IH]; intros c Hi Hb; [cbn; lia|].
  cbn [run foldl length] in *.
  assert (nextStreamID (exec o c) = nextStreamID c ∨
          nextStreamID (exec o c) = nextStreamID c + 2) as Hstep.
  { rewrite exec_counter. destruct o; auto. destruct (IsClosed c); auto.
    right. apply wrap_int32_id. unfold is_int32 in *. lia. }
  specialize (IH (exec o c)). fold (run os (exec o c)) in *.
  destruct Hstep as [He|He]; rewrite He in IH.
  - destruct IH; [done|lia|lia].
  - destruct IH; [unfold is_int32 in *; lia|lia|lia].
Qed.

Lemma created_call_close (k : close_kind) (id : Z) (c : connection) :
  occurrences (EvCreateDataChannel id) (trace (call_close k c).2)
    = occurrences (EvCreateDataChannel id) (trace c).
Proof.
  destruct (closeOnce c) eqn:Hc.
  - by rewrite call_close_again.
  - rewrite call_close_first by done. cbn [snd trace].
    rewrite occurrences_app, (occurrences_0 _ (close_events _ _)); [lia|].
    intros [H|[H|[(s' & _ & H)|[H|H]]]]%elem_of_close_events; try done.
    by destruct k.
Qed.

Lemma created_preempt (k : option close_kind) (id : Z) (c : connection) :
  occurrences (EvCreateDataChannel id) (trace (preempt k c))
    = occurrences (EvCreateDataChannel id) (trace c).
Proof.
  destruct k as [[]|]; [| |done].
  - apply (created_call_close Graceful).
  - apply (created_call_close TimedOut).
Qed.

Lemma table_call_close (k : close_kind) (id : Z) (str : stream) (c : connection) :
  table_lookup (call_close k c).2 id = Some str → table_lookup c id = Some str.
Proof.
  destruct (closeOnce c) eqn:Hc.
  - by rewrite call_close_again.
  - by rewrite call_close_first.
Qed.

Lemma table_preempt (k : option close_kind) (id : Z) (str : stream) (c : connection) :
  table_lookup (preempt k c) id = Some str → table_lookup c id = Some str.
Proof.
  destruct k as [[]|]; [| |done].
  - apply (table_call_close Graceful).
  - apply (table_call_close TimedOut).
Qed.

(** An open-stream call that reads a counter value above [MaxUint16] stops
    right after the allocation. *)
Lemma OpenStream_exhausted (w : open_world) (c : connection) :
  IsClosed c = false → is_int32 (nextStreamID c) → MaxUint16 < nextStreamID c →
  OpenStream w c =
    (Returns (None, Some (ErrNew "exhausted stream ID space")),
     set_nextStreamID (wrap_int32 (nextStreamID c + 2))
       (preempt (ow_preempt_alloc w) c)).
Proof.
  intros Hopen Hi Hmax. unfold OpenStream. rewrite Hopen.
  rewrite nextStreamID_preempt. cbn [nextStreamID set_nextStreamID].
  rewrite post_increment by done.
  by rewrite (proj2 (Z.ltb_lt _ _) Hmax).
Qed.

(** C4.  In every state of an open connection, however it was reached, a
    call to [OpenStream] that reads a counter value greater than 65535 returns
    the "exhausted stream ID space" error, calls [CreateDataChannel] not at
    all, registers no stream, and still moves the 32-bit counter on by 2
    (wrapping around). *)
Theorem exhaustion_rejected (os : list op) (c0 : connection) (w : open_world) :
  is_int32 (nextStreamID c0) →
  let c := run os c0 in
  IsClosed c = false → MaxUint16 < nextStreamID c →
  (OpenStream w c).1 = Returns (None, Some (ErrNew "exhausted stream ID space")) ∧
  (∀ id, occurrences (EvCreateDataChannel id) (trace (OpenStream w c).2)
           = occurrences (EvCreateDataChannel id) (trace c)) ∧
  (∀ id str, table_lookup (OpenStream w c).2 id = Some str →
             table_lookup c id = Some str) ∧
  nextStreamID (OpenStream w c).2 = wrap_int32 (nextStreamID c + 2).
Proof.
  intros Hi0 c Hopen Hmax.
  assert (is_int32 (nextStreamID c)) as Hi by by apply run_is_int32.
  rewrite (OpenStream_exhausted w c Hopen Hi Hmax). cbn [fst snd].
  split; [done|]. split; [|split].
  - intros id. apply (created_preempt (ow_preempt_alloc w)).
  - intros id str. apply (table_preempt (ow_preempt_alloc w)).
  - done.
Qed.

Lemma exhaustion_rejected_witness :
  (OpenStream calm (run [OpOpenStream calm] exhausted_conn)).1
    = Returns (None, Some (ErrNew "exhausted stream ID space")).
Proof.
  destruct (exhaustion_rejected [OpOpenStream calm] exhausted_conn calm) as (H & _).
  - unfold is_int32. cbn. lia.
  - reflexivity.
  - vm_compute. reflexivity.
  - exact H.
Defined.

(** The state after a call that succeeds all the way: the value read from
    the counter, cut to 16 bits, becomes the ID of the channel and of the
    stream. *)
Lemma OpenStream_cooperative (w : open_world) (ref : nat) (rwc : ReadWriteCloser)
    (c : connection) (m : gmap Z stream) :
  cooperative w ref rwc →
  IsClosed c = false → is_int32 (nextStreamID c) → nextStreamID c ≤ MaxUint16 →
  streams c = Some m → m !! to_uint16 (nextStreamID c) = None →
  let id := to_uint16 (nextStreamID c) in
  let str := newStream {| dc_ref := ref; dc_ID := id |} rwc id in
  OpenStream w c =
    (Returns (Some str, None),
     set_streams (Some (<[id := str]> m))
       (emit [EvCreateDataChannel id]
          (set_nextStreamID (wrap_int32 (nextStreamID c + 2)) c))).
Proof.
  intros ((Hp1 & Hp2 & Hp3) & Hcr & Hop & Hpick) Hopen Hi Hle Hs Hl. cbn zeta.
  unfold OpenStream. rewrite Hopen, Hp1, Hp2, Hp3, Hcr. cbn [preempt].
  cbn [nextStreamID set_nextStreamID]. rewrite post_increment by done.
  rewrite (proj2 (Z.ltb_ge _ _) Hle).
  unfold detachChannel, select_detach. rewrite Hop, Hpick.
  rewrite (bool_decide_eq_true_2 (is_Some (Some (rwc, None)))) by by eexists.
  unfold addStream. cbn [streams emit set_nextStreamID newStream stream_id dc_ID].
  by rewrite Hs, Hl.
Qed.

(** What a call leaves alone when no other goroutine closes the connection
    meanwhile: the guard and the signal, and every table entry except
    possibly the one under the allocated ID; past the 16-bit range the table
    is left as it is. *)
Lemma OpenStream_undisturbed (w : open_world) (c : connection) :
  undisturbed w → IsClosed c = false → is_int32 (nextStreamID c) →
  closeOnce (OpenStream w c).2 = closeOnce c ∧
  ctx_done (OpenStream w c).2 = ctx_done c ∧
  (is_Some (streams c) → is_Some (streams (OpenStream w c).2)) ∧
  (∀ id, id ≠ to_uint16 (nextStreamID c) →
     table_lookup (OpenStream w c).2 id = table_lookup c id) ∧
  (MaxUint16 < nextStreamID c → streams (OpenStream w c).2 = streams c).
Proof.
  intros (Hp1 & Hp2 & Hp3) Hopen Hi.
  unfold OpenStream. rewrite Hopen, Hp1, Hp2, Hp3. cbn [preempt].
  cbn [nextStreamID set_nextStreamID]. rewrite post_increment by done.
  destruct (MaxUint16 <? nextStreamID c) eqn:Hmax; [done|].
  apply Z.ltb_ge in Hmax.
  assert (¬ MaxUint16 < nextStreamID c) as Hnot by lia.
  destruct (ow_create w) as [ref|err]; [|done].
  case_detach; [done| |done].
  unfold addStream. cbn [streams emit set_nextStreamID newStream stream_id dc_ID].
  destruct (streams c) as [m|] eqn:Hs.
  2:{ cbn [closeErr emit set_nextStreamID].
      destruct (closeErr c); unfold table_lookup; cbn; rewrite Hs;
        repeat split; try done; by intros [? ?]. }
  destruct (m !! to_uint16 (nextStreamID c)) eqn:Hl; cbn.
  - unfold table_lookup; cbn. rewrite Hs. done.
  - unfold table_lookup; cbn. rewrite Hs. repeat split; try done.
    intros id Hne. cbn. by rewrite lookup_insert_ne.
Qed.

(** *** Long runs of [OpenStream] *)

Lemma wrap_int32_add (x y : Z) :
  wrap_int32 (wrap_int32 x + y) = wrap_int32 (x + y).
Proof.
  unfold wrap_int32. f_equal.
  replace ((x + 2 ^ 31) `mod` 2 ^ 32 - 2 ^ 31 + y + 2 ^ 31)
    with ((x + 2 ^ 31) `mod` 2 ^ 32 + y) by lia.
  rewrite Zplus_mod_idemp_l. f_equal. lia.
Qed.

Lemma open_many_0 (w : N → open_world) (c : connection) : open_many w 0 c = c.
Proof. done. Qed.

Lemma open_many_succ (w : N → open_world) (n : N) (c : connection) :
  open_many w (N.succ n) c = (OpenStream (w n) (open_many w n c)).2.
Proof.
  unfold open_many. rewrite N.iter_succ.
  assert ((N.iter n (λ '(i, c), (N.succ i, (OpenStream (w i) c).2)) (0%N, c)).1 = n)
    as Hidx.
  { induction n as [|n IH] using N.peano_ind; [done|].
    rewrite N.iter_succ.
    destruct (N.iter n _ _) as [i c']. cbn in *. by subst. }
  destruct (N.iter n _ _) as [i c']. cbn in *. by subst.
Qed.

(** As long as nobody closes the connection, [n] calls leave the counter at
    its initial value plus [2 * n], modulo [2 ^ 32]. *)
Lemma open_many_counter (w : N → open_world) (n : N) (c : connection) :
  (∀ i, undisturbed (w i)) → closeOnce c = false → ctx_done c = false →
  is_int32 (nextStreamID c) →
  closeOnce (open_many w n c) = false ∧
  ctx_done (open_many w n c) = false ∧
  nextStreamID (open_many w n c) = wrap_int32 (nextStreamID c + 2 * Z.of_N n).
Proof.
  intros Hw Hg Hd Hi. induction n as [|n IH] using N.peano_ind.
  - rewrite open_many_0. repeat split; try done.
    rewrite wrap_int32_id; [lia|]. by rewrite Z.add_0_r.
  - destruct IH as (IHg & IHd & IHn). rewrite open_many_succ.
    set (cn := open_many w n c) in *.
    assert (is_int32 (nextStreamID cn)) as Hin
      by (rewrite IHn; apply wrap_int32_range).
    destruct (OpenStream_undisturbed (w n) cn (Hw n) IHd Hin) as (Hg' & Hd' & _).
    rewrite Hg', Hd', OpenStream_counter. unfold IsClosed. rewrite IHd, IHn.
    repeat split; try done.
    rewrite wrap_int32_add. f_equal. lia.
Qed.

(** Until the counter wraps, a connection that started at 1 or 2 never has
    an entry under ID 0. *)
Lemma open_many_no_zero (w : N → open_world) (n : N) (c : connection) :
  (∀ i, undisturbed (w i)) → closeOnce c = false → ctx_done c = false →
  1 ≤ nextStreamID c → nextStreamID c + 2 * Z.of_N n ≤ 2 ^ 31 + 1 →
  is_Some (streams c) → table_lookup c 0 = None →
  is_Some (streams (open_many w n c)) ∧ table_lookup (open_many w n c) 0 = None.
Proof.
  intros Hw Hg Hd Hlo. induction n as [|n IH] using N.peano_ind.
  - by rewrite open_many_0.
  - intros Hhi Hs Hz.
    destruct IH as (IHs & IHz); [lia|done|done|].
    assert (is_int32 (nextStreamID c)) as Hi by (unfold is_int32; lia).
    destruct (open_many_counter w n c Hw Hg Hd Hi) as (Hgn & Hdn & Hnn).
    rewrite open_many_succ. set (cn := open_many w n c) in *.
    assert (nextStreamID cn = nextStreamID c + 2 * Z.of_N n) as Hval.
    { rewrite Hnn. apply wrap_int32_id. unfold is_int32. lia. }
    assert (is_int32 (nextStreamID cn)) as Hin
      by (rewrite Hval; unfold is_int32; lia).
    destruct (OpenStream_undisturbed (w n) cn (Hw n) Hdn Hin)
      as (_ & _ & Hs' & Hother & Hpast).
    split; [auto|].
    destruct (decide (MaxUint16 < nextStreamID cn)) as [Hmax|Hmax].
    + unfold table_lookup in *. by rewrite (Hpast Hmax).
    + rewrite Hother; [done|]. unfold to_uint16, MaxUint16 in *.
      rewrite Z.mod_small by lia. lia.
Qed.

(** A counter that has wrapped to the least [int32] passes the exhaustion
    check, and the call creates and registers a stream with ID 0. *)
Lemma wrapped_counter_allocates_zero (w : open_world) (ref : nat)
    (rwc : ReadWriteCloser) (c : connection) :
  cooperative w ref rwc → ctx_done c = false → nextStreamID c = - 2 ^ 31 →
  is_Some (streams c) → table_lookup c 0 = None →
  ∃ str, (OpenStream w c).1 = Returns (Some str, None) ∧
    stream_id str = 0 ∧
    EvCreateDataChannel 0 ∈ trace (OpenStream w c).2 ∧
    table_lookup (OpenStream w c).2 0 = Some str.
Proof.
  intros Hw Hd Hn [m Hs] Hz.
  assert (to_uint16 (nextStreamID c) = 0) as Hid by by rewrite Hn.
  assert (m !! to_uint16 (nextStreamID c) = None) as Hl.
  { rewrite Hid. by rewrite (table_lookup_some _ _ _ Hs) in Hz. }
  assert (is_int32 (nextStreamID c)) as Hi by (rewrite Hn; unfold is_int32; lia).
  assert (nextStreamID c ≤ MaxUint16) as Hle by (rewrite Hn; unfold MaxUint16; lia).
  rewrite (OpenStream_cooperative w ref rwc c m Hw Hd Hi Hle Hs Hl).
  rewrite Hid. eexists. cbn [fst snd]. split; [done|]. split; [done|]. split.
  - cbn. apply elem_of_app. right. apply list_elem_of_singleton. done.
  - unfold table_lookup. cbn. apply lookup_insert_eq.
Qed.

Lemma calm_cooperative : cooperative calm 7 (Some 7%nat).
Proof. done. Qed.

(** After [2 ^ 30 - 1 = 1073741823] calls an outbound connection, which
    started at 2, has its counter at the least [int32]. *)
Lemma outbound_counter_wraps (w : N → open_world) (q : chan) :
  (∀ i, undisturbed (w i)) →
  ctx_done (open_many w 1073741823 (initial DirOutbound q)) = false ∧
  nextStreamID (open_many w 1073741823 (initial DirOutbound q)) = - 2 ^ 31 ∧
  is_Some (streams (open_many w 1073741823 (initial DirOutbound q))) ∧
  table_lookup (open_many w 1073741823 (initial DirOutbound q)) 0 = None.
Proof.
  intros Hw.
  destruct (open_many_counter w 1073741823 (initial DirOutbound q) Hw
              eq_refl eq_refl (initial_is_int32 _ _)) as (_ & Hd & Hn).
  destruct (open_many_no_zero w 1073741823 (initial DirOutbound q) Hw
              eq_refl eq_refl) as (Hs & Hz).
  - cbn [initial nextStreamID]. lia.
  - cbn [initial nextStreamID]. lia.
  - by eexists.
  - done.
  - split; [exact Hd|]. split; [|split; [exact Hs|exact Hz]].
    rewrite Hn. cbn [initial nextStreamID]. vm_compute. reflexivity.
Qed.

(** C3, evaluated where the allocator goes wrong.  On an outbound connection
    that has served [2 ^ 30 - 1] calls to [OpenStream], the connection being
    open throughout, the counter has wrapped from [2 ^ 31 - 2] to
    [- 2 ^ 31]; the next call finds [id > math.MaxUint16] false, converts the
    value to the 16-bit ID 0, creates the channel with ID 0 and returns a
    stream whose ID is 0, the ID reserved for the handshake stream. *)
Theorem OpenStream_allocates_zero_after_wrap :
  IsClosed (open_many (λ _, calm) 1073741823 (initial DirOutbound sample_queue))
    = false ∧
  nextStreamID (open_many (λ _, calm) 1073741823 (initial DirOutbound sample_queue))
    = - 2 ^ 31 ∧
  ∃ str,
    (OpenStream calm
       (open_many (λ _, calm) 1073741823 (initial DirOutbound sample_queue))).1
      = Returns (Some str, None) ∧
    stream_id str = 0 ∧
    EvCreateDataChannel 0 ∈
      trace (OpenStream calm
               (open_many (λ _, calm) 1073741823
                  (initial DirOutbound sample_queue))).2 ∧
    table_lookup
      (OpenStream calm
         (open_many (λ _, calm) 1073741823 (initial DirOutbound sample_queue))).2 0
      = Some str.
Proof.
  destruct (outbound_counter_wraps (λ _, calm) sample_queue
              (λ _, proj1 calm_cooperative)) as (Hd & Hn & Hs & Hz).
  unfold IsClosed.
  split; [exact Hd|]. split; [exact Hn|].
  exact (wrapped_counter_allocates_zero calm 7 (Some 7%nat) _
           calm_cooperative Hd Hn Hs Hz).
Qed.

Lemma settled_closed (c : connection) :
  settled c → IsClosed c = true → ∃ e, closed_with e c.
Proof.
  unfold settled, IsClosed. destruct (closeOnce c).
  - intros [k Hk] _. by exists (close_reason k).
  - congruence.
Qed.

(** C10.  An [OpenStream] that gets past the [IsClosed] poll moves the
    counter on by 2 (modulo [2 ^ 32]) whether it then succeeds, fails or
    stays blocked, and no entry point does anything to the counter but that.
    So, as long as the counter does not wrap, the value a call has read stays
    below the counter for good, the IDs of the returned streams can have gaps
    (2, then a failed call that consumes 4, then 6), and once a call has read
    a value above 65535 every later [OpenStream] fails: with the exhaustion
    error while the connection is open, with the close error afterwards. *)
Theorem failed_open_consumes_id :
  (∀ w c, IsClosed c = false →
     nextStreamID (OpenStream w c).2 = wrap_int32 (nextStreamID c + 2)) ∧
  (∀ o c, nextStreamID (exec o c) = nextStreamID c ∨
          nextStreamID (exec o c) = wrap_int32 (nextStreamID c + 2)) ∧
  (∀ w c os, IsClosed c = false → is_int32 (nextStreamID c) →
     nextStreamID c + 2 + 2 * Z.of_nat (length os) < 2 ^ 31 →
     nextStreamID c < nextStreamID (run os (OpenStream w c).2)) ∧
  (let c0 := initial DirOutbound sample_queue in
   let c1 := (OpenStream calm c0).2 in
   let c2 := (OpenStream failing c1).2 in
   returned_id (OpenStream calm c0).1 = Some 2 ∧
   (OpenStream failing c1).1 = Returns (None, Some (ErrForeign "create failed")) ∧
   returned_id (OpenStream calm c2).1 = Some 6) ∧
  (∀ w c os, settled c → is_int32 (nextStreamID c) →
     MaxUint16 < nextStreamID c →
     nextStreamID c + 2 * Z.of_nat (length os) < 2 ^ 31 →
     failed (OpenStream w (run os c)).1 ∧
     (IsClosed (run os c) = false →
      (OpenStream w (run os c)).1
        = Returns (None, Some (ErrNew "exhausted stream ID space")))).
Proof.
  split; [|split; [|split; [|split]]].
  - intros w c Hopen. by rewrite OpenStream_counter, Hopen.
  - intros o c. rewrite exec_counter.
    destruct o; auto. destruct (IsClosed c); auto.
  - intros w c os Hopen Hi Hb.
    assert (nextStreamID (OpenStream w c).2 = nextStreamID c + 2) as Hn.
    { rewrite OpenStream_counter, Hopen. apply wrap_int32_id.
      unfold is_int32 in *. lia. }
    pose proof (run_counter_bounds os (OpenStream w c).2) as Hrun.
    rewrite Hn in Hrun. destruct Hrun; [unfold is_int32 in *; lia|lia|lia].
  - by vm_compute.
  - intros w c os Hset Hi Hmax Hb.
    pose proof (run_counter_bounds os c Hi Hb) as [Hlo Hhi].
    assert (is_int32 (nextStreamID (run os c))) as Hi' by by apply run_is_int32.
    assert (MaxUint16 < nextStreamID (run os c)) as Hmax' by lia.
    assert (settled (run os c)) as Hset' by eauto using settled_steps, steps_run.
    destruct (IsClosed (run os c)) eqn:Hopen.
    + split; [|done]. destruct (settled_closed _ Hset' Hopen) as [e He].
      exists e. by rewrite (OpenStream_closed e).
    + rewrite (OpenStream_exhausted w _ Hopen Hi' Hmax'). split; [|done].
      by eexists.
Qed.

Lemma failed_open_consumes_id_witness :
  nextStreamID (OpenStream failing sample_conn).2 = 8 ∧
  6 < nextStreamID (run [OpClose] (OpenStream failing sample_conn).2) ∧
  failed (OpenStream calm (run [OpOpenStream calm; OpClose] exhausted_conn)).1.
Proof.
  destruct failed_open_consumes_id as (Hadv & _ & Hskip & _ & Hexh).
  split; [|split].
  - exact (Hadv failing sample_conn eq_refl).
  - apply (Hskip failing sample_conn [OpClose] eq_refl).
    + unfold is_int32. cbn. lia.
    + cbn. lia.
  - apply (Hexh calm exhausted_conn [OpOpenStream calm; OpClose]).
    + reflexivity.
    + unfold is_int32. cbn. lia.
    + vm_compute. reflexivity.
    + cbn. lia.
Defined.

(** ** The accept queue *)






(** ** Further facts about construction, allocation and release *)

(** With [maxAcceptQueueLen] as its length the queue holds 256 channels; a
    negative length makes [make] panic. *)
Lemma SetupDataChannelQueue_default :
  SetupDataChannelQueue maxAcceptQueueLen
    = Some {| chan_buf := []; chan_cap := 256 |} ∧
  SetupDataChannelQueue (-1) = None.
Proof. done. Qed.

Lemma NewWebRTCConnection_initial (direction : Direction)
    (state : PeerConnectionState) (q : chan) :
  NewWebRTCConnection direction state q =
    if failed_or_closed state
    then (None, Some (ErrNew "connection closed"), [EvPcClose])
    else (Some (initial direction q), None, []).
Proof.
  unfold NewWebRTCConnection.
  by destruct direction, (failed_or_closed state).
Qed.

Lemma steps_trace (c c' : connection) :
  rtc basic c c' → ∃ evs, trace c' = trace c ++ evs.
Proof.
  induction 1 as [c|c c1 c2 Hb _ (evs' & IH)].
  - exists []. by rewrite app_nil_r.
  - assert (∃ evs, trace c1 = trace c ++ evs) as (evs & Ht).
    { destruct Hb as [c c1 (_ & _ & _ & _ & _ & evs & Ht & _)|k c]; [by exists evs|].
      destruct (closeOnce c) eqn:Hg.
      - rewrite call_close_again by done. exists []. by rewrite app_nil_r.
      - rewrite call_close_first by done. by eexists. }
    exists (evs ++ evs'). by rewrite IH, Ht, app_assoc.
Qed.

(** While the value read from the counter is at most 65535, the call asks
    the peer connection for a channel with that value cut to 16 bits, and a
    stream it returns carries that ID; for a value that is not negative the
    cut changes nothing. *)
Lemma allocation_in_range (w : open_world) (c : connection) :
  IsClosed c = false → is_int32 (nextStreamID c) → nextStreamID c ≤ MaxUint16 →
  EvCreateDataChannel (to_uint16 (nextStreamID c)) ∈ trace (OpenStream w c).2 ∧
  (∀ str err, (OpenStream w c).1 = Returns (Some str, err) →
     stream_id str = to_uint16 (nextStreamID c)) ∧
  (0 ≤ nextStreamID c → to_uint16 (nextStreamID c) = nextStreamID c).
Proof.
  intros Hopen Hi Hle. split; [|split].
  - assert (∃ c3, EvCreateDataChannel (to_uint16 (nextStreamID c)) ∈ trace c3 ∧
                  rtc basic c3 (OpenStream w c).2) as (c3 & Hin & Hsteps).
    { unfold OpenStream. rewrite Hopen, nextStreamID_preempt.
      cbn [nextStreamID set_nextStreamID]. rewrite post_increment by done.
      rewrite (proj2 (Z.ltb_ge _ _) Hle).
      exists (emit [EvCreateDataChannel (to_uint16 (nextStreamID c))]
                (set_nextStreamID (wrap_int32 (nextStreamID c + 2))
                   (preempt (ow_preempt_alloc w) c))).
      split.
      { cbn [trace emit]. apply elem_of_app. right.
        by apply list_elem_of_singleton. }
      destruct (ow_create w) as [ref|err]; [|done].
      etrans; [apply (steps_preempt (ow_preempt_wait w))|].
      case_detach; [done| |done].
      etrans; [apply (steps_preempt (ow_preempt_add w))|].
      apply steps_insert. }
    destruct (steps_trace _ _ Hsteps) as (evs & ->).
    apply elem_of_app. by left.
  - intros str err. unfold OpenStream. rewrite Hopen, nextStreamID_preempt.
    cbn [nextStreamID set_nextStreamID]. rewrite post_increment by done.
    rewrite (proj2 (Z.ltb_ge _ _) Hle).
    destruct (ow_create w) as [ref|e]; [|done].
    case_detach; [done| |done].
    match goal with
    | |- context [addStream ?s ?c'] => destruct (addStream s c') as [[e|] c'']
    end; [done|].
    cbn. by intros [= <- _].
  - intros H0. unfold to_uint16, MaxUint16 in *. apply Z.mod_small. lia.
Qed.

(** A connection built with [DirUnknown] starts its counter at 0. *)
Lemma unknown_direction_starts_at_zero :
  returned_id (OpenStream calm (initial DirUnknown sample_queue)).1 = Some 0.
Proof. by vm_compute. Qed.

Lemma occurrences_lifecycle (e : event) (t : list event) :
  lifecycle_event e = true → occurrences e t = occurrences e (lifecycle t).
Proof.
  intros He. induction t as [|x t IH]; [done|].
  rewrite lifecycle_cons, occurrences_cons, IH.
  destruct (lifecycle_event x) eqn:Hx; [by rewrite occurrences_cons|].
  rewrite decide_False; [done|]. intros ->. congruence.
Qed.

(** Under every interleaving of the close body with the other entry points,
    the peer connection is closed and the scope released at most once. *)
Lemma release_at_most_once_interleaved (s0 s : system) :
  fresh (conn s0) → closer s0 = None → rtc sys_step s0 s →
  (occurrences EvScopeDone (trace (conn s)) ≤ 1)%nat ∧
  (occurrences EvPcClose (trace (conn s)) ≤ 1)%nat ∧
  (occurrences EvCancel (trace (conn s)) ≤ 1)%nat.
Proof.
  intros Hf Hcl Hr. destruct s0 as [c0 cl0]. cbn in *. subst cl0.
  pose proof (sys_inv_reachable _ _ Hr (sys_inv_fresh _ Hf))
    as (n & r & Hl & _).
  rewrite !(occurrences_lifecycle _ (trace (conn s))), Hl by done.
  repeat split; do 5 (destruct n as [|n]; [vm_compute; lia|]); vm_compute; lia.
Qed.

Lemma well_keyed_steps (c c' : connection) :
  rtc basic c c' → well_keyed c → well_keyed c'.
Proof.
  induction 1 as [c|c c1 c2 Hb _ IH]; [done|]. intros Hwk. apply IH.
  destruct Hb as [c c1 (_ & _ & _ & _ & Hk & _)|k c].
  - intros id str H. destruct (Hk _ _ H) as [H'|H']; auto.
  - intros id str H%table_call_close. auto.
Qed.

(** Every table reachable from a new connection is keyed by stream ID. *)
Lemma well_keyed_run (os : list op) (direction : Direction) (q : chan) :
  well_keyed (run os (initial direction q)).
Proof.
  apply (well_keyed_steps (initial direction q)); [apply steps_run|].
  intros id str. unfold table_lookup. cbn. by rewrite lookup_empty.
Qed.

(** * Further properties of the code *)

(** ** Entry points as mild steps and complete closes *)

Lemma mild_refl (c : connection) : mild c c.
Proof. split; [apply quiet_refl|done]. Qed.

Lemma mild_trans (c1 c2 c3 : connection) : mild c1 c2 → mild c2 c3 → mild c1 c3.
Proof.
  intros (Hq & Hs & Hc & Hb) (Hq' & Hs' & Hc' & Hb').
  split; [by eapply quiet_trans|]. repeat split; auto. congruence.
Qed.

Lemma mild_set_nextStreamID (n : Z) (c : connection) : mild c (set_nextStreamID n c).
Proof. split; [apply quiet_set_nextStreamID|done]. Qed.

Lemma mild_emit (evs : list event) (c : connection) :
  forallb (λ e, negb (close_event e)) evs = true → mild c (emit evs c).
Proof. intros H. split; [by apply quiet_emit|done]. Qed.

Lemma mild_addStream (str : stream) (c : connection) : mild c (addStream str c).2.
Proof.
  split; [apply quiet_addStream|].
  unfold addStream. destruct (streams c) as [m|] eqn:Hs; [|done].
  destruct (m !! stream_id str); cbn; rewrite ?Hs; repeat split; by eauto.
Qed.

Lemma mild_removeStream (id : Z) (c : connection) : mild c (removeStream id c).
Proof.
  split; [apply quiet_removeStream|].
  unfold removeStream. cbn. repeat split; try done.
  intros [m ->]. by eexists.
Qed.

Lemma mild_dequeue (dc : DetachedDataChannel) (rest : list DetachedDataChannel)
    (c : connection) :
  chan_buf (acceptQueue c) = dc :: rest →
  mild c (set_acceptQueue {| chan_buf := rest; chan_cap := chan_cap (acceptQueue c) |} c).
Proof.
  intros Hq. split; [apply quiet_set_acceptQueue|].
  cbn. rewrite Hq. cbn. repeat split; try done. lia.
Qed.

Lemma mild_bridge_onOpen dc detach write_err (c : connection) :
  mild c (bridge_onOpen dc detach write_err c).
Proof.
  split; [apply quiet_bridge_onOpen|].
  unfold bridge_onOpen, onOpen. destruct detach as [rwc [err|]]; [done|].
  case_bool_decide; cbn; repeat split; try done.
  rewrite length_app. cbn. lia.
Qed.

Lemma moves_mild (c c' : connection) : mild c c' → rtc move c c'.
Proof. intros H. apply rtc_once. by constructor. Qed.

Lemma moves_preempt (k : option close_kind) (c : connection) :
  rtc move c (preempt k c).
Proof.
  destruct k as [[]|]; cbn; [| |done].
  - apply rtc_once, (move_close Graceful).
  - apply rtc_once, (move_close TimedOut).
Qed.

Lemma moves_insert (str : stream) (c : connection) :
  rtc move c
    (match addStream str c with
     | (Some err, c) => (Returns (None, Some err), str_Close str c)
     | (None, c) => (Returns (Some str, None), c)
     end).2.
Proof.
  pose proof (mild_addStream str c) as Hq.
  destruct (addStream str c) as [[err|] c']; cbn in *.
  - apply moves_mild. eapply mild_trans; [exact Hq|]. by apply mild_emit.
  - by apply moves_mild.
Qed.

Lemma moves_OpenStream (w : open_world) (c : connection) :
  rtc move c (OpenStream w c).2.
Proof.
  unfold OpenStream. destruct (IsClosed c); [done|].
  etrans; [apply (moves_preempt (ow_preempt_alloc w))|].
  set (c1 := preempt (ow_preempt_alloc w) c).
  etrans; [apply moves_mild, (mild_set_nextStreamID (wrap_int32 (nextStreamID c1 + 2)))|].
  set (c2 := set_nextStreamID _ c1).
  destruct (MaxUint16 <? _); [done|].
  etrans; [apply moves_mild, (mild_emit [EvCreateDataChannel
             (to_uint16 (wrap_int32 (wrap_int32 (nextStreamID c1 + 2) - 2)))]); done|].
  destruct (ow_create w) as [ref|err]; [|done].
  etrans; [apply (moves_preempt (ow_preempt_wait w))|].
  case_detach; [done| |done].
  etrans; [apply (moves_preempt (ow_preempt_add w))|].
  apply moves_insert.
Qed.

Lemma moves_AcceptStream (w : accept_world) (c : connection) :
  rtc move c (AcceptStream w c).2.
Proof.
  unfold AcceptStream.
  destruct (chan_buf (acceptQueue c)) as [|dc rest] eqn:Hq.
  { by destruct (ctx_done c), (aw_pick w). }
  assert (rtc move c
    (match addStream (newStream (dd_channel dc) (dd_stream dc) (dc_ID (dd_channel dc)))
             (preempt (aw_preempt_add w)
                (set_acceptQueue {| chan_buf := rest;
                                    chan_cap := chan_cap (acceptQueue c) |} c)) with
     | (Some err, c) => (Returns (None, Some err),
          str_Close (newStream (dd_channel dc) (dd_stream dc) (dc_ID (dd_channel dc))) c)
     | (None, c) => (Returns (Some (newStream (dd_channel dc) (dd_stream dc)
                                      (dc_ID (dd_channel dc))), None), c)
     end).2) as Hrecv.
  { etrans; [apply moves_mild, (mild_dequeue dc rest c Hq)|].
    etrans; [apply (moves_preempt (aw_preempt_add w))|].
    apply moves_insert. }
  destruct (ctx_done c), (aw_pick w); try done; apply Hrecv.
Qed.

Lemma moves_exec (o : op) (c : connection) : rtc move c (exec o c).
Proof.
  destruct o; cbn.
  - apply rtc_once, (move_close Graceful).
  - unfold onConnectionStateChange. destruct (failed_or_closed state); [|done].
    apply rtc_once, (move_close TimedOut).
  - apply moves_OpenStream.
  - apply moves_AcceptStream.
  - apply moves_mild, mild_removeStream.
  - apply moves_mild, mild_bridge_onOpen.
Qed.

Lemma moves_run (os : list op) (c : connection) : rtc move c (run os c).
Proof.
  revert c. induction os as [|o os IH]; intros c; cbn; [done|].
  etrans; [apply moves_exec|]. apply IH.
Qed.

(** ** Invariants of every reachable connection *)

Lemma coherent_move (c c' : connection) : move c c' → coherent c → coherent c'.
Proof.
  intros [c1 c2 ((Ho & He & Hd & Hn & _) & Hs & _)|k c1]; unfold coherent.
  - rewrite Ho. destruct (closeOnce c1).
    + intros [k (H1 & H2 & H3 & H4)]. exists k. repeat split; [congruence..|auto].
    + intros (H1 & H2 & H3). repeat split; [congruence..|auto].
  - destruct (closeOnce c1) eqn:Hc.
    + rewrite call_close_again by done. cbn. by rewrite Hc.
    + intros _. rewrite call_close_first by done. cbn. by exists k.
Qed.

Lemma coherent_moves (c c' : connection) : rtc move c c' → coherent c → coherent c'.
Proof. induction 1; eauto using coherent_move. Qed.

Lemma coherent_initial (direction : Direction) (q : chan) :
  coherent (initial direction q).
Proof. unfold coherent. cbn. repeat split. by eexists. Qed.

Lemma coherent_run (os : list op) (c : connection) :
  coherent c → coherent (run os c).
Proof. apply coherent_moves, moves_run. Qed.

(** X12.  On a connection built by the constructor, after any sequence of
    entry points, the indicators of "closed" agree: [IsClosed] reports true
    exactly when a close has gone through the one-shot guard, exactly when
    the stream table is nil, and exactly when a close error is recorded; and
    the recorded error is one of the two reasons the close paths write. *)
Theorem closed_indicators_agree (direction : Direction) (q : chan) (os : list op) :
  let c := run os (initial direction q) in
  IsClosed c = closeOnce c ∧
  (streams c = None ↔ IsClosed c = true) ∧
  (closeErr c = None ↔ IsClosed c = false) ∧
  (∀ e, closeErr c = Some e →
        e = ErrNew "connection closed" ∨ e = ErrTimeout mk_errConnectionTimeout).
Proof.
  intros c.
  pose proof (coherent_run os _ (coherent_initial direction q)) as H.
  fold c in H. unfold coherent, IsClosed in *.
  destruct (closeOnce c).
  - destruct H as [k (_ & -> & He & Hs)]. rewrite He, Hs.
    repeat split; try done. intros e [= <-]. destruct k; auto.
  - destruct H as (-> & -> & [m ->]). repeat split; done.
Qed.

Lemma acceptQueue_call_close (k : close_kind) (c : connection) :
  acceptQueue (call_close k c).2 = acceptQueue c.
Proof.
  destruct (closeOnce c) eqn:Hc.
  - by rewrite call_close_again.
  - by rewrite call_close_first.
Qed.

Lemma queue_bound_moves (c c' : connection) :
  rtc move c c' →
  (length (chan_buf (acceptQueue c)) ≤ chan_cap (acceptQueue c))%nat →
  chan_cap (acceptQueue c') = chan_cap (acceptQueue c) ∧
  (length (chan_buf (acceptQueue c')) ≤ chan_cap (acceptQueue c'))%nat.
Proof.
  induction 1 as [c|c c1 c2 Hm _ IH]; [done|]. intros Hb.
  assert (chan_cap (acceptQueue c1) = chan_cap (acceptQueue c) ∧
          (length (chan_buf (acceptQueue c1)) ≤ chan_cap (acceptQueue c1))%nat)
    as (Hc1 & Hb1).
  { destruct Hm as [c c1 (_ & _ & Hc & Hk)|k c]; [auto|].
    by rewrite acceptQueue_call_close. }
  destruct (IH Hb1) as (Hc2 & Hb2). split; [congruence|done].
Qed.

(** X8.  The accept queue a connection was built with never holds more
    channels than the length [SetupDataChannelQueue] was given, whatever
    remote channels arrive and whatever else is called, and its capacity
    never changes. *)
Theorem accept_queue_bounded (queueLen : Z) (q : chan) (direction : Direction)
    (os : list op) :
  SetupDataChannelQueue queueLen = Some q →
  let c := run os (initial direction q) in
  chan_cap (acceptQueue c) = Z.to_nat queueLen ∧
  (length (chan_buf (acceptQueue c)) ≤ Z.to_nat queueLen)%nat.
Proof.
  unfold SetupDataChannelQueue. destruct (queueLen <? 0); [done|].
  intros [= <-]. cbn zeta.
  destruct (queue_bound_moves _ _ (moves_run os (initial direction
              {| chan_buf := []; chan_cap := Z.to_nat queueLen |})))
    as (Hc & Hb).
  - cbn. lia.
  - rewrite Hc in Hb. by rewrite Hc.
Qed.

Lemma accept_queue_bounded_witness :
  let arrive (id : Z) := OpRemoteChannel (sample_channel id) (Some 1%nat, None) None in
  let c := run [arrive 1; arrive 3; arrive 5]
             (initial DirOutbound {| chan_buf := []; chan_cap := 2 |}) in
  chan_cap (acceptQueue c) = 2%nat ∧
  (length (chan_buf (acceptQueue c)) ≤ 2)%nat.
Proof.
  cbn zeta.
  exact (accept_queue_bounded 2 {| chan_buf := []; chan_cap := 2 |} DirOutbound
           [OpRemoteChannel (sample_channel 1) (Some 1%nat, None) None;
            OpRemoteChannel (sample_channel 3) (Some 1%nat, None) None;
            OpRemoteChannel (sample_channel 5) (Some 1%nat, None) None]
           eq_refl).
Defined.

(** ** The channel IDs a connection asks for *)

Lemma created_app (t1 t2 : list event) : created (t1 ++ t2) = created t1 ++ created t2.
Proof. apply omap_app. Qed.

Lemma created_close_events (k : close_kind) (l : list stream) :
  created (close_events k l) = [].
Proof.
  unfold close_events. rewrite !created_app.
  assert (created (termination_event k <$> l) = []) as ->; [|done].
  induction l as [|s l IH]; [done|]. by destruct k.
Qed.

Lemma created_call_close' (k : close_kind) (c : connection) :
  created (trace (call_close k c).2) = created (trace c).
Proof.
  destruct (closeOnce c) eqn:Hc.
  - by rewrite call_close_again.
  - rewrite call_close_first by done. cbn [snd trace].
    by rewrite created_app, created_close_events, app_nil_r.
Qed.

Lemma created_preempt' (k : option close_kind) (c : connection) :
  created (trace (preempt k c)) = created (trace c).
Proof.
  destruct k as [[]|]; [| |done].
  - apply (created_call_close' Graceful).
  - apply (created_call_close' TimedOut).
Qed.

Lemma created_insert (str : stream) (c : connection) :
  created (trace
    (match addStream str c with
     | (Some err, c) => (Returns (None, Some err), str_Close str c)
     | (None, c) => (Returns (Some str, None), c)
     end).2) = created (trace c).
Proof.
  pose proof (addStream_same_but_streams str c) as (_ & _ & _ & _ & _ & Ht).
  destruct (addStream str c) as [[err|] c']; cbn in *; rewrite Ht; [|done].
  by rewrite created_app, app_nil_r.
Qed.

(** A call to [OpenStream] asks for at most one channel: none when the
    connection is closed or the value read exceeds 65535, otherwise one, with
    the low 16 bits of the value read. *)
Lemma OpenStream_created (w : open_world) (c : connection) :
  is_int32 (nextStreamID c) →
  created (trace (OpenStream w c).2) =
    created (trace c) ++
      (if IsClosed c then []
       else if MaxUint16 <? nextStreamID c then []
       else [to_uint16 (nextStreamID c)]).
Proof.
  intros Hi. unfold OpenStream. destruct (IsClosed c); [by rewrite app_nil_r|].
  rewrite nextStreamID_preempt. cbn [nextStreamID set_nextStreamID].
  rewrite post_increment by done.
  destruct (MaxUint16 <? nextStreamID c).
  { cbn. by rewrite created_preempt', app_nil_r. }
  assert (created (trace (emit [EvCreateDataChannel (to_uint16 (nextStreamID c))]
            (set_nextStreamID (wrap_int32 (nextStreamID c + 2))
               (preempt (ow_preempt_alloc w) c))))
          = created (trace c) ++ [to_uint16 (nextStreamID c)]) as Hc.
  { cbn [trace emit set_nextStreamID]. by rewrite created_app, created_preempt'. }
  destruct (ow_create w) as [ref|err]; [|done].
  case_detach; cbn [snd]; rewrite ?created_insert, ?created_preempt'; done.
Qed.

Lemma AcceptStream_created (w : accept_world) (c : connection) :
  created (trace (AcceptStream w c).2) = created (trace c).
Proof.
  unfold AcceptStream.
  destruct (ctx_done c), (chan_buf (acceptQueue c)) as [|dc rest], (aw_pick w);
    try done; by rewrite created_insert, created_preempt'.
Qed.

Lemma exec_created (o : op) (c : connection) :
  is_int32 (nextStreamID c) →
  created (trace (exec o c)) =
    created (trace c) ++
      match o with
      | OpOpenStream _ =>
          if IsClosed c then []
          else if MaxUint16 <? nextStreamID c then []
          else [to_uint16 (nextStreamID c)]
      | _ => []
      end.
Proof.
  intros Hi. destruct o; cbn [exec]; rewrite ?app_nil_r.
  - apply (created_call_close' Graceful).
  - unfold onConnectionStateChange. destruct (failed_or_closed state); [|done].
    apply (created_call_close' TimedOut).
  - by apply OpenStream_created.
  - apply AcceptStream_created.
  - done.
  - unfold bridge_onOpen, onOpen. destruct detach as [rwc [err|]].
    + cbn. by rewrite app_nil_r.
    + case_bool_decide; cbn; by rewrite ?created_app, ?app_nil_r.
Qed.

Lemma wrap_int32_parity (z : Z) : wrap_int32 z `mod` 2 = z `mod` 2.
Proof.
  unfold wrap_int32.
  replace ((z + 2 ^ 31) `mod` 2 ^ 32 - 2 ^ 31)
    with ((z + 2 ^ 31) `mod` 2 ^ 32 + (- 2 ^ 30) * 2) by lia.
  rewrite Z.mod_add by lia.
  rewrite Z.mod_mod_divide by (exists (2 ^ 31); lia).
  replace (z + 2 ^ 31) with (z + 2 ^ 30 * 2) by lia.
  by rewrite Z.mod_add by lia.
Qed.

Lemma to_uint16_parity (z : Z) : to_uint16 z `mod` 2 = z `mod` 2.
Proof.
  unfold to_uint16. apply Z.mod_mod_divide. exists (2 ^ 15). lia.
Qed.

Lemma to_uint16_range (z : Z) : 0 ≤ to_uint16 z ≤ MaxUint16.
Proof.
  unfold to_uint16, MaxUint16.
  pose proof (Z.mod_pos_bound z (2 ^ 16) ltac:(lia)). lia.
Qed.

Lemma run_created_parity (p : Z) (os : list op) (c : connection) :
  is_int32 (nextStreamID c) → nextStreamID c `mod` 2 = p →
  Forall (λ id, 0 ≤ id ≤ MaxUint16 ∧ id `mod` 2 = p) (created (trace c)) →
  Forall (λ id, 0 ≤ id ≤ MaxUint16 ∧ id `mod` 2 = p) (created (trace (run os c))).
Proof.
  revert c. induction os as [|o os IH]; intros c Hi Hp Hall; [done|].
  cbn. apply IH.
  - by apply exec_is_int32.
  - rewrite exec_counter. destruct o; try done.
    destruct (IsClosed c); [done|].
    rewrite wrap_int32_parity. rewrite <- Hp.
    replace (nextStreamID c + 2) with (nextStreamID c + 1 * 2) by lia.
    by rewrite Z.mod_add by lia.
  - rewrite exec_created by done. apply Forall_app. split; [done|].
    destruct o; try by constructor.
    destruct (IsClosed c); [by constructor|].
    destruct (MaxUint16 <? nextStreamID c); [by constructor|].
    constructor; [|by constructor].
    split; [apply to_uint16_range|]. by rewrite to_uint16_parity.
Qed.

(** X1.  Whatever is done with a connection the constructor returned, every
    ID it ever asks [CreateDataChannel] for fits in 16 bits and has the
    parity the constructor fixed: odd on an inbound connection, even on an
    outbound one (and on a connection built with any other direction).  This
    holds across wrap-around of the counter as well. *)
Theorem created_ids_keep_parity (direction : Direction) (state : PeerConnectionState)
    (q : chan) (c : connection) (err : option error) (evs : list event)
    (os : list op) :
  NewWebRTCConnection direction state q = (Some c, err, evs) →
  Forall (λ id, 0 ≤ id ≤ MaxUint16 ∧ id `mod` 2 = start_parity direction)
    (created (trace (run os c))).
Proof.
  rewrite NewWebRTCConnection_initial.
  destruct (failed_or_closed state); [done|]. intros [= <- _ _].
  apply run_created_parity.
  - apply initial_is_int32.
  - by destruct direction.
  - constructor.
Qed.

Lemma created_ids_keep_parity_witness :
  Forall (λ id, 0 ≤ id ≤ MaxUint16 ∧ id `mod` 2 = 1)
    (created (trace (run [OpOpenStream calm; OpOpenStream failing; OpOpenStream calm]
                       (initial DirInbound sample_queue)))).
Proof.
  exact (created_ids_keep_parity DirInbound PeerConnectionStateConnected sample_queue
           _ None [] [OpOpenStream calm; OpOpenStream failing; OpOpenStream calm]
           eq_refl).
Defined.

(** ** What a call leaves in the stream table *)

Lemma addStream_error (str : stream) (c c' : connection) (e : error) :
  addStream str c = (Some e, c') → c' = c.
Proof.
  unfold addStream. destruct (streams c) as [m|]; [|by intros [= _ <-]].
  destruct (m !! stream_id str); by intros [= <-].
Qed.

Lemma addStream_ok (str : stream) (c c' : connection) :
  addStream str c = (None, c') →
  (streams c = None ∧ closeErr c = None ∧ c' = c) ∨
  (∃ m, streams c = Some m ∧ m !! stream_id str = None ∧
        c' = set_streams (Some (<[stream_id str := str]> m)) c).
Proof.
  unfold addStream. destruct (streams c) as [m|] eqn:Hs.
  - destruct (m !! stream_id str) eqn:Hl; [done|]. intros [= <-]. right. by exists m.
  - intros [= -> <-]. by left.
Qed.

Lemma preempt_open (k : option close_kind) (c : connection) :
  closeOnce (preempt k c) = false → preempt k c = c.
Proof.
  destruct k as [k|]; [|done]. intros H.
  pose proof (call_close_closeOnce k c) as Hk.
  destruct k; cbn [preempt call_close] in *; congruence.
Qed.

Lemma coherent_open (c : connection) (m : gmap Z stream) :
  coherent c → streams c = Some m → closeOnce c = false ∧ ctx_done c = false.
Proof.
  unfold coherent. destruct (closeOnce c).
  - intros [k (_ & _ & _ & Hs)] Hm. congruence.
  - by intros (? & _).
Qed.

Lemma coherent_nil (c : connection) :
  coherent c → streams c = None → is_Some (closeErr c).
Proof.
  unfold coherent. destruct (closeOnce c).
  - intros [k (_ & _ & -> & _)] _. by eexists.
  - intros (_ & _ & [m Hm]) Hn. congruence.
Qed.

Lemma coherent_preempt (k : option close_kind) (c : connection) :
  coherent c → coherent (preempt k c).
Proof. apply coherent_moves, moves_preempt. Qed.

(** The state after an [OpenStream] that returned a stream. *)
Lemma OpenStream_success_state (w : open_world) (c : connection)
    (str : stream) (err : option error) :
  coherent c → is_int32 (nextStreamID c) →
  (OpenStream w c).1 = Returns (Some str, err) →
  err = None ∧
  stream_id str = to_uint16 (nextStreamID c) ∧
  onDone str = stream_id str ∧
  table_lookup c (stream_id str) = None ∧
  table_lookup (OpenStream w c).2 (stream_id str) = Some str ∧
  (∀ id, id ≠ stream_id str →
     table_lookup (OpenStream w c).2 id = table_lookup c id).
Proof.
  intros Hco Hi. unfold OpenStream.
  destruct (IsClosed c) eqn:Hopen; [done|].
  rewrite nextStreamID_preempt. cbn [nextStreamID set_nextStreamID].
  rewrite post_increment by done.
  destruct (MaxUint16 <? nextStreamID c); [done|].
  destruct (ow_create w) as [ref|e]; [|done].
  set (c1 := preempt (ow_preempt_alloc w) c).
  set (c3 := emit _ (set_nextStreamID _ c1)).
  set (c4 := preempt (ow_preempt_wait w) c3).
  case_detach; [done| |done].
  set (c5 := preempt (ow_preempt_add w) c4).
  set (str0 := newStream _ rwc _).
  assert (coherent c5) as Hco5.
  { apply coherent_preempt, coherent_preempt.
    apply (coherent_moves c1); [|by apply coherent_preempt].
    etrans; [apply moves_mild, mild_set_nextStreamID|].
    by apply moves_mild, mild_emit. }
  destruct (addStream str0 c5) as [[e|] c6] eqn:Hadd; [done|].
  cbn [fst snd]. intros [= <- <-].
  apply addStream_ok in Hadd as [(Hn & He & _)|(m & Hs & Hl & ->)].
  { destruct (coherent_nil _ Hco5 Hn) as [e He']. congruence. }
  destruct (coherent_open _ _ Hco5 Hs) as (Hg5 & Hd5).
  assert (c5 = c4) as E5 by by apply preempt_open.
  assert (c4 = c3) as E4.
  { apply preempt_open. fold c4. by rewrite <- E5. }
  assert (c1 = c) as E1.
  { apply preempt_open. rewrite E5, E4 in Hg5. exact Hg5. }
  assert (streams c = Some m) as Hsc.
  { rewrite E5, E4 in Hs. unfold c3 in Hs. cbn in Hs. by rewrite E1 in Hs. }
  unfold table_lookup. cbn. rewrite Hsc. cbn.
  repeat split; try done.
  - apply lookup_insert_eq.
  - intros id Hne. by rewrite lookup_insert_ne.
Qed.

(** X2.  When [OpenStream] on a reachable connection returns a stream, the
    error is nil, the stream's ID is the low 16 bits of the value the call
    read from the counter and was free before, the stream now sits in the
    table under that ID with a teardown callback for that same ID, and every
    other entry of the table is as it was. *)
Theorem OpenStream_returns_registered (direction : Direction) (q : chan)
    (os : list op) (w : open_world) (str : stream) (err : option error) :
  let c := run os (initial direction q) in
  (OpenStream w c).1 = Returns (Some str, err) →
  err = None ∧
  stream_id str = to_uint16 (nextStreamID c) ∧
  onDone str = stream_id str ∧
  table_lookup c (stream_id str) = None ∧
  table_lookup (OpenStream w c).2 (stream_id str) = Some str ∧
  (∀ id, id ≠ stream_id str →
     table_lookup (OpenStream w c).2 id = table_lookup c id).
Proof.
  intros c. apply OpenStream_success_state.
  - apply coherent_run, coherent_initial.
  - apply run_is_int32, initial_is_int32.
Qed.

Lemma OpenStream_returns_registered_witness :
  ∃ str, (OpenStream calm (run [OpOpenStream failing] (initial DirOutbound sample_queue))).1
           = Returns (Some str, None) ∧
    stream_id str = 4 ∧
    table_lookup
      (OpenStream calm (run [OpOpenStream failing] (initial DirOutbound sample_queue))).2 4
      = Some str.
Proof.
  eexists. split; [reflexivity|].
  destruct (OpenStream_returns_registered DirOutbound sample_queue
              [OpOpenStream failing] calm _ None eq_refl)
    as (_ & Hid & _ & _ & Hreg & _).
  split; [exact Hid|exact Hreg].
Defined.

Lemma table_insert_tail (str : stream) (c : connection) (id : Z) (s : stream) :
  (∀ s' e, (match addStream str c with
            | (Some err, c) => (Returns (None, Some err), str_Close str c)
            | (None, c) => (Returns (Some str, None), c)
            end).1 ≠ Returns (Some s', e)) →
  table_lookup
    (match addStream str c with
     | (Some err, c) => (Returns (None, Some err), str_Close str c)
     | (None, c) => (Returns (Some str, None), c)
     end).2 id = Some s →
  table_lookup c id = Some s.
Proof.
  destruct (addStream str c) as [[e|] c'] eqn:Hadd; cbn.
  - apply addStream_error in Hadd as ->. done.
  - intros H. by destruct (H str None).
Qed.

(** X3.  An [OpenStream] or [AcceptStream] that does not return a stream,
    because it failed or stays blocked, adds nothing to the stream table:
    every entry found afterwards was there before.  This holds in every
    state and every environment, a cancelled caller context and a concurrent
    close included. *)
Theorem no_stream_no_entry (c : connection) :
  (∀ w, (∀ str e, (OpenStream w c).1 ≠ Returns (Some str, e)) →
     ∀ id s, table_lookup (OpenStream w c).2 id = Some s → table_lookup c id = Some s) ∧
  (∀ w, (∀ str e, (AcceptStream w c).1 ≠ Returns (Some str, e)) →
     ∀ id s, table_lookup (AcceptStream w c).2 id = Some s → table_lookup c id = Some s).
Proof.
  split.
  - intros w. unfold OpenStream. destruct (IsClosed c); [done|].
    destruct (MaxUint16 <? _).
    { intros _ id s. cbn. apply (table_preempt (ow_preempt_alloc w)). }
    destruct (ow_create w) as [ref|e].
    2:{ intros _ id s. cbn. apply (table_preempt (ow_preempt_alloc w)). }
    case_detach.
    + intros _ id s. cbn. intros H%table_preempt.
      by apply (table_preempt (ow_preempt_alloc w)).
    + intros Hfail id s H. apply table_insert_tail in H; [|done].
      apply table_preempt, table_preempt in H.
      by apply (table_preempt (ow_preempt_alloc w)).
    + intros _ id s. cbn. intros H%table_preempt.
      by apply (table_preempt (ow_preempt_alloc w)).
  - intros w. unfold AcceptStream.
    destruct (ctx_done c), (chan_buf (acceptQueue c)) as [|dc rest], (aw_pick w);
      try done; intros Hfail id s H; apply table_insert_tail in H; try done;
      by apply table_preempt in H.
Qed.

Lemma no_stream_no_entry_witness :
  table_lookup (OpenStream failing sample_conn).2 6 = None.
Proof.
  destruct (table_lookup (OpenStream failing sample_conn).2 6) as [s|] eqn:H;
    [|reflexivity].
  apply (proj1 (no_stream_no_entry sample_conn) failing) in H; [discriminate H|].
  intros str e. discriminate.
Defined.

(** ** Accepting a stream *)

Lemma occurrences_call_close (e : event) (k : close_kind) (c : connection) :
  close_event e = false →
  occurrences e (trace (call_close k c).2) = occurrences e (trace c).
Proof.
  intros He. destruct (closeOnce c) eqn:Hc.
  - by rewrite call_close_again.
  - rewrite call_close_first by done. cbn [snd trace].
    rewrite occurrences_app, (occurrences_0 _ (close_events _ _)); [lia|].
    intros [H|[H|[(s' & _ & H)|[H|H]]]]%elem_of_close_events; subst e;
      try done.
    by destruct k.
Qed.

Lemma occurrences_preempt (e : event) (k : option close_kind) (c : connection) :
  close_event e = false →
  occurrences e (trace (preempt k c)) = occurrences e (trace c).
Proof.
  intros He. destruct k as [[]|]; [| |done].
  - by apply (occurrences_call_close e Graceful).
  - by apply (occurrences_call_close e TimedOut).
Qed.

Lemma acceptQueue_preempt (k : option close_kind) (c : connection) :
  acceptQueue (preempt k c) = acceptQueue c.
Proof.
  destruct k as [[]|]; [| |done].
  - apply (acceptQueue_call_close Graceful).
  - apply (acceptQueue_call_close TimedOut).
Qed.

(** The state after an [AcceptStream] that received the channel [dc]. *)
Lemma AcceptStream_received_state (w : accept_world) (c : connection)
    (dc : DetachedDataChannel) (rest : list DetachedDataChannel) :
  coherent c → IsClosed c = false → chan_buf (acceptQueue c) = dc :: rest →
  let str := newStream (dd_channel dc) (dd_stream dc) (dc_ID (dd_channel dc)) in
  chan_buf (acceptQueue (AcceptStream w c).2) = rest ∧
  (((AcceptStream w c).1 = Returns (Some str, None) ∧
    table_lookup c (stream_id str) = None ∧
    table_lookup (AcceptStream w c).2 (stream_id str) = Some str ∧
    (∀ id, id ≠ stream_id str →
       table_lookup (AcceptStream w c).2 id = table_lookup c id) ∧
    occurrences (EvStreamClose str) (trace (AcceptStream w c).2)
      = occurrences (EvStreamClose str) (trace c)) ∨
   (∃ e, (AcceptStream w c).1 = Returns (None, Some e) ∧
      (∀ id s, table_lookup (AcceptStream w c).2 id = Some s →
               table_lookup c id = Some s) ∧
      occurrences (EvStreamClose str) (trace (AcceptStream w c).2)
        = S (occurrences (EvStreamClose str) (trace c)))).
Proof.
  intros Hco Hopen Hq str. unfold IsClosed in Hopen.
  assert (AcceptStream w c =
    match addStream str (preempt (aw_preempt_add w)
            (set_acceptQueue {| chan_buf := rest;
                                chan_cap := chan_cap (acceptQueue c) |} c)) with
    | (Some err, c) => (Returns (None, Some err), str_Close str c)
    | (None, c) => (Returns (Some str, None), c)
    end) as ->.
  { unfold AcceptStream. rewrite Hopen, Hq. by destruct (aw_pick w). }
  set (c0 := set_acceptQueue _ c). set (c1 := preempt (aw_preempt_add w) c0).
  assert (coherent c1) as Hco1.
  { apply coherent_preempt. apply (coherent_moves c); [|done].
    by apply moves_mild, (mild_dequeue dc). }
  assert (chan_buf (acceptQueue c1) = rest) as Hq1
    by (unfold c1; by rewrite acceptQueue_preempt).
  assert (occurrences (EvStreamClose str) (trace c1)
          = occurrences (EvStreamClose str) (trace c)) as Ht1
    by (unfold c1; by rewrite occurrences_preempt).
  destruct (addStream str c1) as [[e|] c2] eqn:Hadd; cbn [fst snd].
  - apply addStream_error in Hadd as ->. split; [done|]. right. exists e.
    split; [done|]. split.
    + intros id s H. by apply table_preempt in H.
    + cbn [trace str_Close emit]. rewrite occurrences_app, Ht1.
      unfold occurrences at 2. cbn. rewrite decide_True by done. cbn. lia.
  - apply addStream_ok in Hadd as [(Hn & He & _)|(m & Hs & Hl & ->)].
    { destruct (coherent_nil _ Hco1 Hn) as [e He']. congruence. }
    destruct (coherent_open _ _ Hco1 Hs) as (Hg1 & _).
    assert (c1 = c0) as E1 by by apply preempt_open.
    assert (streams c = Some m) as Hsc by (by rewrite E1 in Hs).
    split; [done|]. left. unfold table_lookup. cbn. rewrite Hsc. cbn.
    repeat split; try done.
    + apply lookup_insert_eq.
    + intros id Hne. by rewrite lookup_insert_ne.
Qed.

(** X4.  An [AcceptStream] on a reachable, open connection with a channel
    at the head of the queue takes exactly that channel off the queue and
    wraps it as a stream with the channel's own ID.  Either it returns that
    stream, registered under its ID with all other entries untouched and
    without closing it; or it returns an error, adds nothing to the table and
    closes the stream exactly once, so that no stream it created is left
    behind. *)
Theorem AcceptStream_registers_or_closes (direction : Direction) (q : chan)
    (os : list op) (w : accept_world) (dc : DetachedDataChannel)
    (rest : list DetachedDataChannel) :
  let c := run os (initial direction q) in
  IsClosed c = false → chan_buf (acceptQueue c) = dc :: rest →
  let str := newStream (dd_channel dc) (dd_stream dc) (dc_ID (dd_channel dc)) in
  chan_buf (acceptQueue (AcceptStream w c).2) = rest ∧
  (((AcceptStream w c).1 = Returns (Some str, None) ∧
    table_lookup c (stream_id str) = None ∧
    table_lookup (AcceptStream w c).2 (stream_id str) = Some str ∧
    (∀ id, id ≠ stream_id str →
       table_lookup (AcceptStream w c).2 id = table_lookup c id) ∧
    occurrences (EvStreamClose str) (trace (AcceptStream w c).2)
      = occurrences (EvStreamClose str) (trace c)) ∨
   (∃ e, (AcceptStream w c).1 = Returns (None, Some e) ∧
      (∀ id s, table_lookup (AcceptStream w c).2 id = Some s →
               table_lookup c id = Some s) ∧
      occurrences (EvStreamClose str) (trace (AcceptStream w c).2)
        = S (occurrences (EvStreamClose str) (trace c)))).
Proof.
  intros c. apply AcceptStream_received_state.
  apply coherent_run, coherent_initial.
Qed.

Lemma AcceptStream_registers_or_closes_witness :
  let arrive := OpRemoteChannel (sample_channel 1) (Some 1%nat, None) None in
  let c := run [arrive; arrive] (initial DirOutbound sample_queue) in
  chan_buf (acceptQueue
    (AcceptStream {| aw_pick := CaseQueue; aw_preempt_add := None |} c).2)
    = [ {| dd_stream := Some 1%nat; dd_channel := sample_channel 1 |} ].
Proof.
  cbn zeta.
  exact (proj1 (AcceptStream_registers_or_closes DirOutbound sample_queue
                  [OpRemoteChannel (sample_channel 1) (Some 1%nat, None) None;
                   OpRemoteChannel (sample_channel 1) (Some 1%nat, None) None]
                  {| aw_pick := CaseQueue; aw_preempt_add := None |}
                  _ _ eq_refl eq_refl)).
Defined.

(** X5.  [AcceptStream] stays blocked exactly when the connection is open
    and the queue is empty.  Whenever a call does not take a channel off the
    queue, because it blocks or because it returns through the lifecycle
    signal, it leaves the connection exactly as it was, and what it returns
    then is the recorded close error. *)
Theorem AcceptStream_blocks_or_receives (w : accept_world) (c : connection) :
  ((AcceptStream w c).1 = Blocks ↔
     IsClosed c = false ∧ chan_buf (acceptQueue c) = []) ∧
  (chan_buf (acceptQueue (AcceptStream w c).2) = chan_buf (acceptQueue c) →
     (AcceptStream w c).2 = c ∧
     ((AcceptStream w c).1 = Blocks ∨
      (AcceptStream w c).1 = Returns (None, closeErr c))).
Proof.
  assert (∀ dc rest, chan_buf (acceptQueue c) = dc :: rest →
    chan_buf (acceptQueue
      (match addStream (newStream (dd_channel dc) (dd_stream dc) (dc_ID (dd_channel dc)))
               (preempt (aw_preempt_add w)
                  (set_acceptQueue {| chan_buf := rest;
                                      chan_cap := chan_cap (acceptQueue c) |} c)) with
       | (Some err, c) => (Returns (None, Some err),
            str_Close (newStream (dd_channel dc) (dd_stream dc) (dc_ID (dd_channel dc))) c)
       | (None, c) => (Returns (Some (newStream (dd_channel dc) (dd_stream dc)
                                        (dc_ID (dd_channel dc))), None), c)
       end).2) ≠ chan_buf (acceptQueue c)) as Hrecv.
  { intros dc rest Hq. 
    match goal with
    | |- context [addStream ?s ?c0] =>
        pose proof (addStream_same_but_streams s c0) as (_ & _ & _ & Hqueue & _);
        destruct (addStream s c0) as [[err|] c']
    end; cbn in *; rewrite Hqueue, acceptQueue_preempt, Hq; cbn;
      intros H; apply (f_equal length) in H; cbn in H; lia. }
  unfold AcceptStream, IsClosed.
  destruct (chan_buf (acceptQueue c)) as [|dc rest] eqn:Hq.
  - destruct (ctx_done c); cbn.
    + split; [split; [done|by intros [? _]]|]. intros _. split; [done|]. by right.
    + split; [done|]. intros _. split; [done|]. by left.
  - specialize (Hrecv dc rest eq_refl).
    destruct (ctx_done c), (aw_pick w); cbn [fst snd].
    1: { split; [split; [done|by intros [? _]]|]. intros _. split; [done|by right]. }
    all: split; [split; [|by intros [_ ?]]|intros H; by destruct Hrecv].
    all: by destruct (addStream _ _) as [[?|] ?].
Qed.

Lemma AcceptStream_blocks_or_receives_witness :
  (AcceptStream {| aw_pick := CaseQueue; aw_preempt_add := None |} sample_conn).1 = Blocks ∧
  (AcceptStream {| aw_pick := CaseQueue; aw_preempt_add := None |} sample_conn).2
    = sample_conn.
Proof.
  destruct (AcceptStream_blocks_or_receives
              {| aw_pick := CaseQueue; aw_preempt_add := None |} sample_conn)
    as (Hb & Hs).
  split.
  - apply Hb. split; reflexivity.
  - apply Hs. reflexivity.
Defined.

(** ** Teardown callbacks *)

(** X6.  On a reachable connection, a stream that [OpenStream] or
    [AcceptStream] has just returned is deregistered by its own teardown
    callback: after the callback the stream table holds, under every ID, what
    it held before the call that created the stream. *)
Theorem open_then_done_restores_table (direction : Direction) (q : chan)
    (os : list op) :
  let c := run os (initial direction q) in
  (∀ w str err, (OpenStream w c).1 = Returns (Some str, err) →
     ∀ id, table_lookup (fire_onDone str (OpenStream w c).2) id = table_lookup c id) ∧
  (∀ w str err, (AcceptStream w c).1 = Returns (Some str, err) →
     ∀ id, table_lookup (fire_onDone str (AcceptStream w c).2) id = table_lookup c id).
Proof.
  intros c.
  assert (coherent c) as Hco by apply coherent_run, coherent_initial.
  assert (is_int32 (nextStreamID c)) as Hi by apply run_is_int32, initial_is_int32.
  clearbody c.
  assert (∀ c' str, onDone str = stream_id str →
            table_lookup c (stream_id str) = None →
            is_Some (streams c') →
            (∀ id, id ≠ stream_id str → table_lookup c' id = table_lookup c id) →
            ∀ id, table_lookup (fire_onDone str c') id = table_lookup c id) as Hback.
  { intros c' str Hcb Hfree [m Hm] Hother id.
    unfold fire_onDone. rewrite Hcb.
    unfold removeStream, table_lookup at 1. cbn. rewrite Hm. cbn.
    destruct (decide (id = stream_id str)) as [->|Hne].
    - by rewrite lookup_delete_eq, Hfree.
    - rewrite lookup_delete_ne by done. rewrite <- (Hother id Hne).
      by rewrite (table_lookup_some _ _ _ Hm). }
  split.
  - intros w str err Hret.
    destruct (OpenStream_success_state w c str err Hco Hi Hret)
      as (_ & _ & Hcb & Hfree & Hreg & Hother).
    apply Hback; try done.
    unfold table_lookup in Hreg. destruct (streams (OpenStream w c).2); [by eexists|done].
  - intros w str err Hret.
    destruct (chan_buf (acceptQueue c)) as [|dc rest] eqn:Hq.
    { unfold AcceptStream in Hret. rewrite Hq in Hret. by destruct (ctx_done c). }
    destruct (IsClosed c) eqn:Hopen.
    { destruct (settled_closed c) as [e He]; [|done|].
      - unfold coherent, settled in *. destruct (closeOnce c); [done|by destruct Hco].
      - by rewrite (AcceptStream_closed e) in Hret. }
    destruct (AcceptStream_received_state w c dc rest Hco Hopen Hq)
      as (_ & [(Hr & Hfree & Hreg & Hother & _)|(e & Hr & _)]).
    + rewrite Hr in Hret. injection Hret as <- _.
      apply Hback; try done.
      unfold table_lookup in Hreg.
      destruct (streams (AcceptStream w c).2); [by eexists|done].
    + by rewrite Hr in Hret.
Qed.

Lemma open_then_done_restores_table_witness :
  table_lookup
    (fire_onDone (newStream {| dc_ref := 7; dc_ID := 2 |} (Some 7%nat) 2)
       (OpenStream calm (initial DirOutbound sample_queue)).2) 2
    = table_lookup (initial DirOutbound sample_queue) 2.
Proof.
  exact (proj1 (open_then_done_restores_table DirOutbound sample_queue []) calm
           (newStream {| dc_ref := 7; dc_ID := 2 |} (Some 7%nat) 2) None eq_refl 2).
Defined.

(** X7.  Teardown callbacks may fire repeatedly and in any order: removing
    an ID twice is the same as removing it once, and removals of different
    IDs commute.  A removal after a close changes nothing.  In a table keyed
    by stream ID, removing an ID takes the stream with that ID out of the
    registered streams, which are the ones a later close terminates, and
    keeps every other registered stream. *)
Theorem removeStream_composes (i j : Z) (c : connection) :
  removeStream i (removeStream i c) = removeStream i c ∧
  removeStream i (removeStream j c) = removeStream j (removeStream i c) ∧
  (∀ k, closeOnce c = false →
     removeStream i (call_close k c).2 = (call_close k c).2) ∧
  (well_keyed c →
     ∀ str, str ∈ registered (removeStream i c) ↔
            str ∈ registered c ∧ stream_id str ≠ i).
Proof.
  split; [|split; [|split]].
  - unfold removeStream. cbn [streams set_streams].
    rewrite <- option_fmap_compose.
    assert (delete i ∘ delete i <$> streams c = delete i <$> streams c) as ->; [|done].
    destruct (streams c) as [m|]; cbn; [|done]. f_equal. apply delete_delete_eq.
  - unfold removeStream. cbn [streams set_streams].
    rewrite <- !option_fmap_compose.
    assert (delete i ∘ delete j <$> streams c = delete j ∘ delete i <$> streams c)
      as ->; [|done].
    destruct (streams c) as [m|]; cbn; [|done]. f_equal. apply delete_delete.
  - intros k Hc. by rewrite call_close_first.
  - intros Hwk str. rewrite !elem_of_registered.
    unfold removeStream, table_lookup. cbn.
    destruct (streams c) as [m|] eqn:Hs; cbn.
    + split.
      * intros (id & [Hne Hl]%lookup_delete_Some). split; [by exists id|].
        rewrite (Hwk id str); [done|]. by rewrite (table_lookup_some _ _ _ Hs).
      * intros ((id & Hl) & Hne). exists id. apply lookup_delete_Some.
        split; [|done]. intros <-. apply Hne, Hwk.
        by rewrite (table_lookup_some _ _ _ Hs).
    + split; [by intros (? & ?)|by intros ((? & ?) & _)].
Qed.

Lemma removeStream_composes_witness :
  removeStream 2 (Close sample_conn).2 = (Close sample_conn).2 ∧
  sample_stream 4 ∈ registered (removeStream 2 sample_conn).
Proof.
  destruct (removeStream_composes 2 2 sample_conn) as (_ & _ & Hclosed & Hreg).
  split.
  - exact (Hclosed Graceful eq_refl).
  - apply Hreg.
    + intros id str. unfold table_lookup. cbn.
      intros H. apply lookup_insert_Some in H as [[<- <-]|[_ H]]; [reflexivity|].
      apply lookup_insert_Some in H as [[<- <-]|[_ H]]; [reflexivity|].
      by rewrite lookup_empty in H.
    + split; [|cbn; lia]. apply elem_of_registered. by exists 4.
Defined.

(** ** The state-change callback *)



(** ** A burst of remote channels *)

Lemma bridge_all_snoc (arrivals : list arrival) (a : arrival) (q : chan) :
  bridge_all (arrivals ++ [a]) q =
    let '(q1, evs1) := bridge_all arrivals q in
    let '(q2, evs2) := onOpen (ar_channel a) (ar_detach a) (ar_write a) q1 in
    (q2, evs1 ++ evs2).
Proof.
  unfold bridge_all. rewrite foldl_app. cbn.
  by destruct (foldl _ _ arrivals) as [q1 evs1].
Qed.

Lemma detached_snoc (arrivals : list arrival) (a : arrival) :
  detached (arrivals ++ [a]) =
    detached arrivals ++
      match ar_detach a with
      | (rwc, None) => [ {| dd_stream := rwc; dd_channel := ar_channel a |} ]
      | (_, Some _) => []
      end.
Proof.
  unfold detached. rewrite omap_app. f_equal. cbn.
  by destruct (ar_detach a) as [rwc [e|]].
Qed.

(** X10.  When a series of remote channels reaches the bridge, the channels
    whose detach failed leave no trace at all; of the detached ones, the
    first that fit into the free room of the queue are appended in arrival
    order, and each of the others gets exactly one RESET message followed by
    a close, in arrival order; nothing already queued is touched. *)
Theorem bridge_burst (arrivals : list arrival) (q : chan) :
  (length (chan_buf q) ≤ chan_cap q)%nat →
  let room := (chan_cap q - length (chan_buf q))%nat in
  bridge_all arrivals q =
    ({| chan_buf := chan_buf q ++ take room (detached arrivals);
        chan_cap := chan_cap q |},
     drop room (detached arrivals) ≫= rejection).
Proof.
  intros Hb room. induction arrivals as [|a arrivals IH] using rev_ind.
  - cbn. rewrite take_nil, drop_nil, app_nil_r. by destruct q.
  - rewrite bridge_all_snoc, IH, detached_snoc. unfold onOpen.
    destruct (ar_detach a) as [rwc [err|]]; cbn [chan_buf chan_cap].
    + by rewrite !app_nil_r.
    + set (ds := detached arrivals). rewrite length_app, length_take.
      rewrite take_app, drop_app, bind_app.
      destruct (decide (length ds < room)%nat) as [Hlt|Hge].
      * rewrite bool_decide_eq_true_2 by (unfold room in *; lia).
        rewrite (take_ge [_]), (drop_ge [_]) by (cbn; lia).
        cbn. by rewrite !app_nil_r, app_assoc.
      * rewrite bool_decide_eq_false_2 by (unfold room in *; lia).
        replace (room - length ds)%nat with 0%nat by lia.
        cbn. by rewrite !app_nil_r.
Qed.

Lemma bridge_burst_witness :
  let a (id : Z) := {| ar_channel := sample_channel id;
                       ar_detach := (Some (Z.to_nat id), None); ar_write := None |} in
  let lost := {| ar_channel := sample_channel 9;
                 ar_detach := (None, Some (ErrForeign "detach failed"));
                 ar_write := None |} in
  bridge_all [a 1; lost; a 3; a 5] sample_queue =
    ({| chan_buf := [ {| dd_stream := Some 1%nat; dd_channel := sample_channel 1 |};
                      {| dd_stream := Some 3%nat; dd_channel := sample_channel 3 |} ];
        chan_cap := 2 |},
     [EvWriteMsg (Some 5%nat) {| Flag := Some Message_RESET |}; EvRwcClose (Some 5%nat)]).
Proof.
  cbn zeta.
  rewrite bridge_burst; [reflexivity|]. cbn. lia.
Defined.

(** ** Waiting for the channel to open *)

(** X11.  [detachChannel] stays blocked exactly when the connection is open,
    the caller's context is live and the channel has not opened.  An error
    it returns is the recorded close error (only when the lifecycle signal
    has fired), the error of the caller's context, or the error of
    [dc.Detach()]; with the first two it returns no handle.  And on a
    connection that has its close reason set whenever the signal has fired,
    a nil error means that the channel opened and [dc.Detach()] returned the
    handle without error. *)
Theorem detachChannel_outcomes (w : open_world) (c : connection) :
  (detachChannel w c = Blocks ↔
     ctx_done c = false ∧ ow_caller w = None ∧ ow_opened w = None) ∧
  (∀ rwc e, detachChannel w c = Returns (rwc, Some e) →
     (ctx_done c = true ∧ closeErr c = Some e ∧ rwc = None) ∨
     (ow_caller w = Some e ∧ rwc = None) ∨
     ow_opened w = Some (rwc, Some e)) ∧
  ((ctx_done c = true → is_Some (closeErr c)) →
   ∀ rwc, detachChannel w c = Returns (rwc, None) →
          ow_opened w = Some (rwc, None)).
Proof.
  unfold detachChannel, select_detach.
  destruct (ctx_done c) eqn:Hd, (ow_caller w) as [ce|] eqn:Hc,
    (ow_opened w) as [[orwc oerr]|] eqn:Ho, (ow_pick w) eqn:Hp; cbn;
    (split; [split; [try done|try by intros (? & ? & ?)]|split]);
    try (intros rwc e [= <- <-]; auto; fail);
    try (intros rwc e [= <- ->]; auto; fail);
    try (intros rwc e H; discriminate H);
    try (intros Hinv rwc [= <- <-]; done);
    try (intros Hinv rwc [= <- H]; destruct (Hinv eq_refl) as [x Hx]; congruence);
    try (intros Hinv rwc [= <- ->]; done);
    try (intros Hinv rwc H; discriminate H).
Qed.

Lemma detachChannel_outcomes_witness :
  detachChannel failing sample_conn = Blocks ∧
  ow_opened calm = Some (Some 7%nat, None).
Proof.
  destruct (detachChannel_outcomes failing sample_conn) as (Hb & _).
  destruct (detachChannel_outcomes calm sample_conn) as (_ & _ & Hok).
  split.
  - apply Hb. repeat split.
  - apply Hok; [discriminate|reflexivity].
Defined.

(** X13.  When the caller's context is done before the channel opens, on a
    reachable open connection that nobody closes meanwhile, [OpenStream]
    returns the context's error wrapped as "open stream: ...".  It leaves the
    table and the queue as they were, but it has used up the ID it read and
    has created the channel for it, which it does not close. *)
Theorem OpenStream_cancelled (direction : Direction) (q : chan) (os : list op)
    (w : open_world) (ref : nat) (e : error) :
  let c := run os (initial direction q) in
  undisturbed w → IsClosed c = false → nextStreamID c ≤ MaxUint16 →
  ow_create w = inl ref → ow_caller w = Some e → ow_opened w = None →
  OpenStream w c =
    (Returns (None, Some (ErrOpenStream e)),
     emit [EvCreateDataChannel (to_uint16 (nextStreamID c))]
       (set_nextStreamID (wrap_int32 (nextStreamID c + 2)) c)) ∧
  Error (ErrOpenStream e) = ("open stream: " ++ Error e)%string.
Proof.
  intros c (Hp1 & Hp2 & Hp3) Hopen Hle Hcr Hcaller Hopened.
  assert (is_int32 (nextStreamID c)) as Hi by apply run_is_int32, initial_is_int32.
  clearbody c. split; [|done].
  unfold OpenStream. rewrite Hopen, Hp1, Hp2, Hcr. cbn [preempt].
  cbn [nextStreamID set_nextStreamID]. rewrite post_increment by done.
  rewrite (proj2 (Z.ltb_ge _ _) Hle).
  unfold detachChannel, select_detach. cbn [ctx_done emit set_nextStreamID].
  unfold IsClosed in Hopen. rewrite Hopen, Hcaller, Hopened.
  by destruct (ow_pick w).
Qed.

Lemma OpenStream_cancelled_witness :
  let w := {| ow_preempt_alloc := None; ow_create := inl 7%nat;
              ow_preempt_wait := None;
              ow_caller := Some (ErrForeign "context canceled");
              ow_opened := None; ow_pick := CaseOpened; ow_preempt_add := None |} in
  (OpenStream w (initial DirOutbound sample_queue)).1
    = Returns (None, Some (ErrOpenStream (ErrForeign "context canceled"))).
Proof.
  cbn zeta.
  assert (nextStreamID (run [] (initial DirOutbound sample_queue)) ≤ MaxUint16) as Hle
    by (cbn; unfold MaxUint16; lia).
  exact (f_equal fst
           (proj1 (OpenStream_cancelled DirOutbound sample_queue []
                     {| ow_preempt_alloc := None; ow_create := inl 7%nat;
                        ow_preempt_wait := None;
                        ow_caller := Some (ErrForeign "context canceled");
                        ow_opened := None; ow_pick := CaseOpened;
                        ow_preempt_add := None |}
                     7%nat (ErrForeign "context canceled")
                     (conj eq_refl (conj eq_refl eq_refl))
                     eq_refl Hle eq_refl eq_refl eq_refl))).
Defined.

(** ** What a close leaves alone, and what happens after it *)

(** X14.  Neither close path touches the accept queue or the counter, and
    neither closes or resets anything but the registered streams: detached
    channels still waiting in the queue stay there, unclosed. *)
Theorem close_leaves_queue (k : close_kind) (c : connection) :
  acceptQueue (call_close k c).2 = acceptQueue c ∧
  nextStreamID (call_close k c).2 = nextStreamID c ∧
  (∀ rwc, occurrences (EvRwcClose rwc) (trace (call_close k c).2)
            = occurrences (EvRwcClose rwc) (trace c)) ∧
  (∀ str, occurrences (EvStreamClose str) (trace (call_close k c).2)
            = occurrences (EvStreamClose str) (trace c)) ∧
  (∀ str, str ∉ registered c →
     occurrences (termination_event k str) (trace (call_close k c).2)
       = occurrences (termination_event k str) (trace c)).
Proof.
  split; [apply acceptQueue_call_close|].
  split; [apply nextStreamID_call_close|].
  split; [intros rwc; by apply occurrences_call_close|].
  split; [intros str; by apply occurrences_call_close|].
  intros str Hnot. destruct (closeOnce c) eqn:Hc.
  - by rewrite call_close_again.
  - rewrite call_close_first by done. cbn [snd trace].
    rewrite occurrences_app, (occurrences_0 _ (close_events _ _)); [lia|].
    intros [H|[H|[(s' & Hin & H)|[H|H]]]]%elem_of_close_events;
      try (by destruct k).
    apply termination_event_inj in H. by subst.
Qed.

(** X15.  Once a close is complete, [OpenStream] changes nothing at all, so
    no further ID is used up; and [AcceptStream] either changes nothing or
    takes the channel at the head of the queue, wraps it and closes the
    stream at once, leaving the table nil. *)
Theorem calls_after_close (e : error) (c : connection) :
  closed_with e c →
  (∀ w, (OpenStream w c).2 = c) ∧
  (∀ w, (AcceptStream w c).2 = c ∨
        ∃ dc rest,
          let str := newStream (dd_channel dc) (dd_stream dc) (dc_ID (dd_channel dc)) in
          chan_buf (acceptQueue c) = dc :: rest ∧
          (AcceptStream w c).2 =
            str_Close str
              (set_acceptQueue {| chan_buf := rest;
                                  chan_cap := chan_cap (acceptQueue c) |} c)).
Proof.
  intros Hcl. split.
  - intros w. by rewrite (OpenStream_closed e).
  - intros w. pose proof Hcl as (Ho & Hd & He & Hs).
    unfold AcceptStream. rewrite Hd.
    destruct (chan_buf (acceptQueue c)) as [|dc rest]; [by left|].
    destruct (aw_pick w); [by left|]. right. exists dc, rest. split; [done|].
    assert (closed_with e (set_acceptQueue
              {| chan_buf := rest; chan_cap := chan_cap (acceptQueue c) |} c)) as Hcl'
      by done.
    rewrite (preempt_closed e _ _ Hcl'). unfold addStream. cbn. by rewrite Hs, He.
Qed.

Lemma calls_after_close_witness :
  (OpenStream calm (Close sample_conn).2).2 = (Close sample_conn).2.
Proof.
  destruct (calls_after_close (ErrNew "connection closed") (Close sample_conn).2)
    as (H & _).
  - repeat split.
  - apply H.
Defined.

Lemma exec_created_closed (e : error) (o : op) (c : connection) :
  closed_with e c → created (trace (exec o c)) = created (trace c).
Proof.
  intros Hcl. destruct o; cbn [exec].
  - apply (created_call_close' Graceful).
  - unfold onConnectionStateChange. destruct (failed_or_closed state); [|done].
    apply (created_call_close' TimedOut).
  - by rewrite (OpenStream_closed e).
  - apply AcceptStream_created.
  - done.
  - unfold bridge_onOpen, onOpen. destruct detach as [rwc [err|]].
    + cbn. by rewrite app_nil_r.
    + case_bool_decide; cbn; by rewrite ?created_app, ?app_nil_r.
Qed.

(** X16.  After a close is complete the connection never asks the peer
    connection for another channel, whatever is called. *)
Theorem no_channel_after_close (e : error) (os : list op) (c : connection) :
  closed_with e c → created (trace (run os c)) = created (trace c).
Proof.
  revert c. induction os as [|o os IH]; intros c Hcl; [done|].
  change (run (o :: os) c) with (run os (exec o c)). rewrite IH.
  - by apply (exec_created_closed e).
  - apply (closed_with_steps e c); [apply steps_exec|done].
Qed.

Lemma no_channel_after_close_witness :
  created (trace (run [OpOpenStream calm; OpOpenStream calm] (Close sample_conn).2))
    = [].
Proof.
  rewrite (no_channel_after_close (ErrNew "connection closed")); [reflexivity|].
  repeat split.
Defined.

(** ** The close body under interleaving *)

(** X17.  Under every interleaving of the close body with the other entry
    points, starting from a fresh connection, the lifecycle context is
    cancelled, the peer connection closed and the scope released at most
    once; and when the goroutine that won the guard has returned, each has
    happened exactly once and the connection is completely closed with that
    goroutine's reason. *)
Theorem teardown_once_interleaved (s0 s : system) :
  fresh (conn s0) → closer s0 = None → rtc sys_step s0 s →
  (occurrences EvCancel (trace (conn s)) ≤ 1)%nat ∧
  (occurrences EvPcClose (trace (conn s)) ≤ 1)%nat ∧
  (occurrences EvScopeDone (trace (conn s)) ≤ 1)%nat ∧
  (∀ k, closer s = Some (k, AtReturn) →
     occurrences EvCancel (trace (conn s)) = 1%nat ∧
     occurrences EvPcClose (trace (conn s)) = 1%nat ∧
     occurrences EvScopeDone (trace (conn s)) = 1%nat ∧
     closed_with (close_reason k) (conn s)).
Proof.
  intros Hf Hcl Hr. destruct s0 as [c0 cl0]. cbn in *. subst cl0.
  pose proof (sys_inv_reachable _ _ Hr (sys_inv_fresh _ Hf))
    as (n & r & Hl & He & Hd & Hm).
  rewrite !(occurrences_lifecycle _ (trace (conn s))), Hl by done.
  split; [|split; [|split]].
  1-3: do 5 (destruct n as [|n]; [vm_compute; lia|]); vm_compute; lia.
  intros k Hk. rewrite Hk in Hm.
  destruct (closeOnce (conn s)) eqn:Hg; [|done].
  destruct Hm as (-> & -> & Hs). cbn in *.
  repeat split; try done. by apply Hs.
Qed.

Lemma teardown_once_interleaved_witness :
  (occurrences EvCancel
     (trace (cancel (write_closeErr (close_reason Graceful)
               (set_closeOnce true (initial DirInbound sample_queue))))) ≤ 1)%nat.
Proof.
  assert (rtc sys_step
            {| conn := initial DirInbound sample_queue; closer := None |}
            {| conn := cancel (write_closeErr (close_reason Graceful)
                         (set_closeOnce true (initial DirInbound sample_queue)));
               closer := Some (Graceful, AtTake) |}) as Hr.
  { eapply rtc_l; [apply (step_enter Graceful); reflexivity|].
    eapply rtc_l; [apply (step_closer Graceful AtWriteErr); discriminate|].
    eapply rtc_l; [apply (step_closer Graceful AtCancel); discriminate|].
    apply rtc_refl. }
  exact (proj1 (teardown_once_interleaved
                  {| conn := initial DirInbound sample_queue; closer := None |} _
                  (fresh_initial DirInbound sample_queue) eq_refl Hr)).
Defined.

(** ** The table of a reachable connection *)

(** X18.  In every connection reachable from the constructor, each entry of
    the stream table holds a stream whose ID is the key it sits under, so no
    two registered streams share an ID. *)
Theorem reachable_table_keyed (direction : Direction) (q : chan) (os : list op) :
  well_keyed (run os (initial direction q)) ∧
  NoDup (stream_id <$> registered (run os (initial direction q))).
Proof.
  assert (well_keyed (run os (initial direction q))) as Hwk.
  { apply (well_keyed_steps (initial direction q)); [apply steps_run|].
    intros id str. unfold table_lookup. cbn. by rewrite lookup_empty. }
  split; [done|by apply well_keyed_NoDup].
Qed.

(** ** Instances of the statements above *)

Lemma closed_indicators_agree_witness :
  IsClosed (run [OpOpenStream calm; OpClose] (initial DirOutbound sample_queue)) = true ∧
  streams (run [OpOpenStream calm; OpClose] (initial DirOutbound sample_queue)) = None.
Proof.
  destruct (closed_indicators_agree DirOutbound sample_queue [OpOpenStream calm; OpClose])
    as (Hg & Hs & _).
  split; [exact Hg|]. apply Hs. exact Hg.
Defined.

Lemma close_leaves_queue_witness :
  acceptQueue (Close sample_conn).2 = sample_queue ∧
  occurrences (EvReset (sample_stream 6)) (trace (Close sample_conn).2) = 0%nat.
Proof.
  destruct (close_leaves_queue Graceful sample_conn) as (Hq & _ & _ & _ & Hn).
  split; [exact Hq|]. apply (Hn (sample_stream 6)).
  intros [id H]%elem_of_registered. unfold table_lookup in H. cbn in H.
  apply lookup_insert_Some in H as [[_ H]|[_ H]]; [discriminate H|].
  apply lookup_insert_Some in H as [[_ H]|[_ H]]; [discriminate H|].
  by rewrite lookup_empty in H.
Defined.
